(** * sierpinski.c: the line rasterizer and the recursive triangle generator

    A shallow embedding of [draw_line] and [draw_sierpinski] of
    [src/sierpinski.c], and the properties of them that the specification
    states.

    - A C [int] is a [Z] in the range [int_min .. int_max]; every arithmetic
      operation of the source is written with its 32-bit two's-complement
      wrap-around ([add], [sub], [div]).  C leaves signed overflow undefined:
      the theorems below carry range hypotheses under which no operation
      overflows, so that they do not depend on the wrap-around.
    - The display library is external.  A run of the program is observed as
      the sequence of [mvaddch] calls it makes; [render] replays such a
      sequence on an arbitrary surface.
    - The loops of [draw_line] and the recursion of [draw_sierpinski] may fail
      to terminate on some inputs, so both take fuel and return [None] when it
      runs out.  [draw_sierpinski] takes a bound on the nesting of its calls
      and, apart from it, the fuel of the loops.

    The development has four parts: the model (the two functions, and
    [init], [deinit] and [main] around them in the module [Main]), the closed
    forms of what the two functions do ([line_cells], [sierpinski_lines]) with
    the proofs that the model computes them, the properties of the
    specification, and further properties of the code. *)

From Stdlib Require Import ZArith List Lia Bool.
From Stdlib Require String Ascii.
Import ListNotations.
Local Open Scope Z_scope.

(** ** Machine integers *)

Module Int.

Definition int_min : Z := - 2 ^ 31.
Definition int_max : Z := 2 ^ 31 - 1.

(** The value of a 32-bit two's-complement register holding [z]. *)
Definition wrap (z : Z) : Z := (z + 2 ^ 31) mod 2 ^ 32 - 2 ^ 31.

Definition add (a b : Z) : Z := wrap (a + b).
Definition sub (a b : Z) : Z := wrap (a - b).
(** C99 division truncates toward zero. *)
Definition div (a b : Z) : Z := wrap (Z.quot a b).

Definition in_range (z : Z) : Prop := int_min <= z <= int_max.

End Int.
Import Int.

(** ** The display surface *)

(** [chtype] is the library's character type; the program never inspects it. *)
Definition chtype := Z.

(** One call [mvaddch(y, x, ch)] of the source: row first, then column. *)
Inductive call : Type :=
| mvaddch (y x : Z) (ch : chtype).

(** The grid cell (x, y) that a call writes. *)
Definition cell_of (c : call) : Z * Z :=
  match c with mvaddch y x _ => (x, y) end.

Definition cells (l : list call) : list (Z * Z) := map cell_of l.

Section Surface.
Variable surface : Type.
Variable plot : Z -> Z -> chtype -> surface -> surface.

(** The surface after the calls of [l], made in order on [s]. *)
Definition render (s : surface) (l : list call) : surface :=
  fold_left (fun s c => match c with mvaddch y x ch => plot y x ch s end) l s.
End Surface.

(** ** Loops *)

(** [for ( ; cond; incr) body], where [body] returns the state it leaves and
    the calls it made.  [None] when the fuel does not suffice. *)
Fixpoint for_loop {St : Type} (fuel : nat) (cond : St -> bool)
    (body : St -> St * list call) (incr : St -> St) (s : St)
  : option (list call) :=
  match fuel with
  | O => None
  | S fuel' =>
      if cond s then
        let (s', out) := body s in
        match for_loop fuel' cond body incr (incr s') with
        | Some rest => Some (out ++ rest)
        | None => None
        end
      else Some []
  end.

(** ** draw_line *)

(** The loop state is the triple of the mutated locals (x0, y0, dec). *)
Definition draw_line (fuel : nat) (x0 y0 x1 y1 : Z) (ch : chtype)
  : option (list call) :=
  if x1 >=? x0 then
    let dx := sub x1 x0 in
    if y1 >=? y0 then
      let dy := sub y1 y0 in
      if dx >=? dy then
        let dec := dx in
        for_loop fuel
          (fun '(x0, y0, dec) => x0 <=? x1)
          (fun '(x0, y0, dec) =>
             let '(dec, y0) :=
               if dec <=? 0 then (add dec dx, add y0 1) else (dec, y0) in
             ((x0, y0, sub dec dy), [mvaddch y0 x0 ch]))
          (fun '(x0, y0, dec) => (add x0 1, y0, dec))
          (x0, y0, dec)
      else
        let dec := dy in
        for_loop fuel
          (fun '(x0, y0, dec) => y0 <=? y1)
          (fun '(x0, y0, dec) =>
             let '(dec, x0) :=
               if dec <=? 0 then (add dec dy, add x0 1) else (dec, x0) in
             ((x0, y0, sub dec dx), [mvaddch y0 x0 ch]))
          (fun '(x0, y0, dec) => (x0, add y0 1, dec))
          (x0, y0, dec)
    else
      let dy := sub y0 y1 in
      if dx >=? dy then
        let dec := dx in
        for_loop fuel
          (fun '(x0, y0, dec) => x0 <=? x1)
          (fun '(x0, y0, dec) =>
             let '(dec, y0) :=
               if dec <=? 0 then (add dec dx, sub y0 1) else (dec, y0) in
             ((x0, y0, sub dec dy), [mvaddch y0 x0 ch]))
          (fun '(x0, y0, dec) => (add x0 1, y0, dec))
          (x0, y0, dec)
      else
        let dec := dy in
        for_loop fuel
          (fun '(x0, y0, dec) => y0 >=? y1)
          (fun '(x0, y0, dec) =>
             let '(dec, x0) :=
               if dec <=? 0 then (add dec dy, add x0 1) else (dec, x0) in
             ((x0, y0, sub dec dx), [mvaddch y0 x0 ch]))
          (fun '(x0, y0, dec) => (x0, sub y0 1, dec))
          (x0, y0, dec)
  else
    let dx := sub x0 x1 in
    if y1 >=? y0 then
      let dy := sub y1 y0 in
      if dx >=? dy then
        let dec := dx in
        for_loop fuel
          (fun '(x0, y0, dec) => x0 >=? x1)
          (fun '(x0, y0, dec) =>
             let '(dec, y0) :=
               if dec <=? 0 then (add dec dx, add y0 1) else (dec, y0) in
             ((x0, y0, sub dec dy), [mvaddch y0 x0 ch]))
          (fun '(x0, y0, dec) => (sub x0 1, y0, dec))
          (x0, y0, dec)
      else
        let dec := dy in
        for_loop fuel
          (fun '(x0, y0, dec) => y0 <=? y1)
          (fun '(x0, y0, dec) =>
             let '(dec, x0) :=
               if dec <=? 0 then (add dec dy, sub x0 1) else (dec, x0) in
             ((x0, y0, sub dec dx), [mvaddch y0 x0 ch]))
          (fun '(x0, y0, dec) => (x0, add y0 1, dec))
          (x0, y0, dec)
    else
      let dy := sub y0 y1 in
      if dx >=? dy then
        let dec := dx in
        for_loop fuel
          (fun '(x0, y0, dec) => x0 >=? x1)
          (fun '(x0, y0, dec) =>
             let '(dec, y0) :=
               if dec <=? 0 then (add dec dx, sub y0 1) else (dec, y0) in
             ((x0, y0, sub dec dy), [mvaddch y0 x0 ch]))
          (fun '(x0, y0, dec) => (sub x0 1, y0, dec))
          (x0, y0, dec)
      else
        let dec := dy in
        for_loop fuel
          (fun '(x0, y0, dec) => y0 >=? y1)
          (fun '(x0, y0, dec) =>
             let '(dec, x0) :=
               if dec <=? 0 then (add dec dy, sub x0 1) else (dec, x0) in
             ((x0, y0, sub dec dx), [mvaddch y0 x0 ch]))
          (fun '(x0, y0, dec) => (x0, sub y0 1, dec))
          (x0, y0, dec).

(** ** draw_sierpinski *)

Notation "x <- e ;; k" :=
  (match e with Some x => k | None => None end)
  (at level 61, e at next level, right associativity).

Section Sierpinski.
(** The glyph of the library's [ACS_DIAMOND] macro. *)
Variable ACS_DIAMOND : chtype.

(** [stack] bounds the nesting of the recursive calls, [fuel] the
    iterations of each loop of [draw_line].  The result lists, in order,
    the calls of [draw_line] that were made, each as the [mvaddch] calls it
    produced ([by] is a keyword: the parameter is [by_]). *)
Fixpoint draw_sierpinski (stack fuel : nat) (ax ay bx by_ cx cy depth : Z)
  : option (list (list call)) :=
  match stack with
  | O => None
  | S stack' =>
      if depth =? 0 then Some []
      else
        left <- draw_sierpinski stack' fuel
                  (add bx (div (sub ax bx) 2)) (add ay (div (sub by_ ay) 2))
                  bx by_ ax by_ (sub depth 1) ;;
        right <- draw_sierpinski stack' fuel
                  (add ax (div (sub cx ax) 2)) (add ay (div (sub cy ay) 2))
                  ax by_ cx cy (sub depth 1) ;;
        upper <- draw_sierpinski stack' fuel
                  ax ay
                  (add bx (div (sub ax bx) 2)) (add ay (div (sub by_ ay) 2))
                  (add ax (div (sub cx ax) 2)) (add ay (div (sub cy ay) 2))
                  (sub depth 1) ;;
        ab <- draw_line fuel ax ay bx by_ ACS_DIAMOND ;;
        bc <- draw_line fuel bx by_ cx cy ACS_DIAMOND ;;
        ca <- draw_line fuel cx cy ax ay ACS_DIAMOND ;;
        Some (left ++ right ++ upper ++ [ab; bc; ca])
  end.
End Sierpinski.

(** The calls of [mvaddch] of a run, in order. *)
Definition plots (lines : list (list call)) : list call := concat lines.


(** ** Vocabulary of the statements *)

(** A run with fuel returns [a]: some amount of fuel gives [a], and no amount
    gives anything else. *)
Definition returns {A : Type} (run : nat -> option A) (a : A) : Prop :=
  (exists fuel : nat, run fuel = Some a) /\
  (forall (fuel : nat) (a' : A), run fuel = Some a' -> a' = a).

(** The same for a run with a stack bound and loop fuel. *)
Definition returns2 {A : Type} (run : nat -> nat -> option A) (a : A) : Prop :=
  (exists stack fuel : nat, run stack fuel = Some a) /\
  (forall (stack fuel : nat) (a' : A), run stack fuel = Some a' -> a' = a).

(** Coordinates for which no operation of [draw_line] and no midpoint of
    [draw_sierpinski] overflows: differences of two of them fit an [int]. *)
Definition coord (z : Z) : Prop := - 2 ^ 30 <= z < 2 ^ 30.

(** [n] consecutive integers from [k]. *)
Fixpoint zseq (k : Z) (n : nat) : list Z :=
  match n with
  | O => []
  | S n' => k :: zseq (k + 1) n'
  end.

(** What [draw_line] plots, in closed form: along the axis of the larger
    extent every coordinate from the first endpoint to the second, and on the
    other axis the quotient of the accumulated minor extent, rounded toward
    the first endpoint.  With equal endpoints the accumulator starts at 0 and
    the first iteration already steps the y coordinate. *)
Definition line_cells (x0 y0 x1 y1 : Z) : list (Z * Z) :=
  let dx := x1 - x0 in
  let dy := y1 - y0 in
  if (dx =? 0) && (dy =? 0) then [(x0, y0 + 1)]
  else if Z.abs dy <=? Z.abs dx then
    map (fun k => (x0 + Z.sgn dx * k, y0 + Z.sgn dy * (k * Z.abs dy / Z.abs dx)))
        (zseq 0 (Z.to_nat (Z.abs dx + 1)))
  else
    map (fun k => (x0 + Z.sgn dx * (k * Z.abs dx / Z.abs dy), y0 + Z.sgn dy * k))
        (zseq 0 (Z.to_nat (Z.abs dy + 1))).

Definition plot_cell (ch : chtype) (c : Z * Z) : call :=
  mvaddch (snd c) (fst c) ch.

(** Two cells that differ by at most 1 in each coordinate. *)
Definition adjacent8 (a b : Z * Z) : bool :=
  (Z.abs (fst b - fst a) <=? 1) && (Z.abs (snd b - snd a) <=? 1).

(** Every cell of the sequence is adjacent to the one before it. *)
Fixpoint connected8 (l : list (Z * Z)) : bool :=
  match l with
  | [] => true
  | a :: t =>
      match t with
      | [] => true
      | b :: _ => adjacent8 a b && connected8 t
      end
  end.

(** Two sequences of cells that cover the same set of cells. *)
Definition same_cells (l1 l2 : list (Z * Z)) : Prop :=
  forall c, In c l1 <-> In c l2.

(** The midpoint of the specification: the floor of the mean of the
    coordinates ([Z.div] rounds toward minus infinity). *)
Definition floor_mid (p q : Z * Z) : Z * Z :=
  ((fst p + fst q) / 2, (snd p + snd q) / 2).

(** The vertices that the three recursive calls of [draw_sierpinski] pass:
    the arguments of the source, with C's truncating division. *)
Definition mid_ab (ax ay bx by_ : Z) : Z * Z :=
  (add bx (div (sub ax bx) 2), add ay (div (sub by_ ay) 2)).
Definition mid_ac (ax ay cx cy : Z) : Z * Z :=
  (add ax (div (sub cx ax) 2), add ay (div (sub cy ay) 2)).

(** The calls that one call of [draw_line] makes. *)
Definition line (ch : chtype) (x0 y0 x1 y1 : Z) : list call :=
  map (plot_cell ch) (line_cells x0 y0 x1 y1).

(** What [draw_sierpinski] draws at depth [n], in closed form: the lines of
    the left, the right and the upper triangle, then the three edges. *)
Fixpoint sierpinski_lines (ch : chtype) (n : nat) (ax ay bx by_ cx cy : Z)
  : list (list call) :=
  match n with
  | O => []
  | S n' =>
      let ab := mid_ab ax ay bx by_ in
      let ac := mid_ac ax ay cx cy in
      sierpinski_lines ch n' (fst ab) (snd ab) bx by_ ax by_ ++
      sierpinski_lines ch n' (fst ac) (snd ac) ax by_ cx cy ++
      sierpinski_lines ch n' ax ay (fst ab) (snd ab) (fst ac) (snd ac) ++
      [line ch ax ay bx by_; line ch bx by_ cx cy; line ch cx cy ax ay]
  end.

(** A triangle as its vertices A, B and C. *)
Definition triangle : Type := (Z * Z) * (Z * Z) * (Z * Z).

(** The triangles of the three recursive calls of [draw_sierpinski], in the
    order of the calls. *)
Definition left_triangle (ax ay bx by_ cx cy : Z) : triangle :=
  (mid_ab ax ay bx by_, (bx, by_), (ax, by_)).
Definition right_triangle (ax ay bx by_ cx cy : Z) : triangle :=
  (mid_ac ax ay cx cy, (ax, by_), (cx, cy)).
Definition upper_triangle (ax ay bx by_ cx cy : Z) : triangle :=
  ((ax, ay), mid_ab ax ay bx by_, mid_ac ax ay cx cy).

(** [draw_sierpinski] on a triangle. *)
Definition draw_triangle (ch : chtype) (stack fuel : nat) (t : triangle)
    (depth : Z) : option (list (list call)) :=
  let '((ax, ay), (bx, by_), (cx, cy)) := t in
  draw_sierpinski ch stack fuel ax ay bx by_ cx cy depth.

(** The recursive case of [draw_sierpinski], on the three triangles. *)
Definition draw_sierpinski_step (ch : chtype) (stack fuel : nat)
    (ax ay bx by_ cx cy depth : Z) : option (list (list call)) :=
  left <- draw_triangle ch stack fuel
            (left_triangle ax ay bx by_ cx cy) (sub depth 1) ;;
  right <- draw_triangle ch stack fuel
            (right_triangle ax ay bx by_ cx cy) (sub depth 1) ;;
  upper <- draw_triangle ch stack fuel
            (upper_triangle ax ay bx by_ cx cy) (sub depth 1) ;;
  ab <- draw_line fuel ax ay bx by_ ch ;;
  bc <- draw_line fuel bx by_ cx cy ch ;;
  ca <- draw_line fuel cx cy ax ay ch ;;
  Some (left ++ right ++ upper ++ [ab; bc; ca]).

(** ** Further vocabulary *)

(** The glyph that a call writes. *)
Definition glyph_of (c : call) : chtype :=
  match c with mvaddch _ _ ch => ch end.

(** The point reflection of a cell through the middle of the segment from
    (x0, y0) to (x1, y1). *)
Definition reflect (x0 y0 x1 y1 : Z) (c : Z * Z) : Z * Z :=
  (x0 + x1 - fst c, y0 + y1 - snd c).

(** The cells of the columns [lx .. hx] and the rows [ly .. hy]. *)
Definition in_box (lx hx ly hy : Z) (c : Z * Z) : Prop :=
  lx <= fst c <= hx /\ ly <= snd c <= hy.

(** The same as a test. *)
Definition in_boxb (lx hx ly hy : Z) (c : Z * Z) : bool :=
  (lx <=? fst c) && (fst c <=? hx) && (ly <=? snd c) && (snd c <=? hy).

(** A triangle as [main] passes it: A not below B, between B and C in x,
    and B and C on one row. *)
Definition upright (t : triangle) : Prop :=
  let '((ax, ay), (bx, by_), (cx, cy)) := t in
  bx <= ax <= cx /\ ay <= by_ /\ cy = by_.

(** ** The program: [init], [deinit] and [main]

    The calls of the display library and of [fprintf] are events; what the
    library answers is given by a [library] record. *)

Module Main.
Import String.

Definition MSG1 : string := "Sierpinski triangle".
Definition MSG2 : string := "Hit <ENTER> to exit".

Definition strlen (s : string) : Z := Z.of_nat (String.length s).

Definition EXIT_SUCCESS : Z := 0.
Definition EXIT_FAILURE : Z := 1.

(** The calls that the program makes; [intrflush] and [keypad] are called on
    [stdscr] with the flag given. *)
Inductive event : Type :=
| initscr
| cbreak
| noecho
| nonl
| intrflush (bf : bool)
| keypad (bf : bool)
| plot (c : call)
| mvaddstr (y x : Z) (str : string)
| refresh
| getch
| endwin
| fprintf_stderr (str : string).

(** Whether each call of [init] succeeds (returns neither [NULL] nor
    [ERR]), and the width [COLS] of the screen. *)
Record library : Type := {
  initscr_ok : bool;
  cbreak_ok : bool;
  noecho_ok : bool;
  nonl_ok : bool;
  intrflush_ok : bool;
  keypad_ok : bool;
  COLS : Z
}.

(** The comparison [call() == ERR] (or [== NULL]): its truth value and the
    call made. *)
Definition fails (ev : event) (ok : bool) : bool * list event :=
  (negb ok, [ev]).

(** C's [||]: the right operand is evaluated only when the left one is
    false. *)
Definition or_else (a b : bool * list event) : bool * list event :=
  if fst a then a else (fst b, (snd a ++ snd b)%list).

Definition init (lib : library) : bool * list event :=
  let r :=
    or_else (or_else (or_else (or_else (or_else
      (fails initscr (initscr_ok lib))
      (fails cbreak (cbreak_ok lib)))
      (fails noecho (noecho_ok lib)))
      (fails nonl (nonl_ok lib)))
      (fails (intrflush false) (intrflush_ok lib)))
      (fails (keypad true) (keypad_ok lib)) in
  (negb (fst r), snd r).

Definition deinit : list event := [endwin].

(** The column [COLS/2-strlen(str)/2] that [main] passes to [mvaddstr]:
    [COLS/2] is an [int], [strlen(str)/2] a 64-bit [size_t], so the
    difference is taken modulo 2^64 and converted back to the [int]
    parameter. *)
Definition text_column (cols : Z) (str : string) : Z :=
  wrap (((div cols 2) mod 2 ^ 64 - strlen str / 2) mod 2 ^ 64).

(** The line that [main] prints when [init] fails. *)
Definition init_failed (argv0 : string) : string :=
  (argv0 ++ ": " ++ "init failed." ++ String (Ascii.ascii_of_nat 10) EmptyString)%string.

(** [main] returns its exit status and the calls it made. *)
Definition main (lib : library) (ACS_DIAMOND : chtype) (argv0 : string)
    (stack fuel : nat) : option (Z * list event) :=
  let (ok, started) := init lib in
  if negb ok then
    Some (EXIT_FAILURE, (started ++ [fprintf_stderr (init_failed argv0)])%list)
  else
    first <- draw_sierpinski ACS_DIAMOND stack fuel 65 0 0 65 130 65 4 ;;
    second <- draw_sierpinski ACS_DIAMOND stack fuel 200 0 135 65 265 65 7 ;;
    Some (EXIT_SUCCESS,
          (started ++ map plot (plots first) ++ map plot (plots second) ++
           [mvaddstr 1 (text_column (COLS lib) MSG1) MSG1;
            mvaddstr 4 (text_column (COLS lib) MSG2) MSG2;
            refresh; getch] ++ deinit)%list).

End Main.

(** ** The model on the scenarios of the specification *)

Example draw_line_horizontal :
  draw_line 7 0 0 5 0 0 =
    Some [mvaddch 0 0 0; mvaddch 0 1 0; mvaddch 0 2 0; mvaddch 0 3 0;
          mvaddch 0 4 0; mvaddch 0 5 0].
Proof. reflexivity. Qed.

Example draw_line_diagonal :
  draw_line 5 0 0 3 3 0 =
    Some [mvaddch 0 0 0; mvaddch 1 1 0; mvaddch 2 2 0; mvaddch 3 3 0].
Proof. reflexivity. Qed.

Example draw_line_steep_left :
  draw_line 6 0 0 (-1) 4 0 =
    Some [mvaddch 0 0 0; mvaddch 1 0 0; mvaddch 2 0 0; mvaddch 3 0 0;
          mvaddch 4 (-1) 0].
Proof. reflexivity. Qed.

Example draw_line_out_of_fuel : draw_line 6 0 0 5 0 0 = None.
Proof. reflexivity. Qed.

(** The triangle A = (0,50), B = (25,0), C = (50,50) at depth 1: three calls
    of [draw_line], of 51 cells each. *)
Example draw_sierpinski_scenario :
  option_map (map (@length call)) (draw_sierpinski 0 2 60 0 50 25 0 50 50 1) =
    Some [51; 51; 51]%nat.
Proof. vm_compute. reflexivity. Qed.

(** The first triangle that [main] draws, at depth 4. *)
Example draw_sierpinski_main :
  option_map (fun out => (length out, length (plots out)))
             (draw_sierpinski 0 5 200 65 0 0 65 130 65 4) =
    Some (120, 2250)%nat.
Proof. vm_compute. reflexivity. Qed.

(** At depth 8 the triangles of that figure collapse: [draw_line] is called
    with equal endpoints, the calls that plot a single cell. *)
Example draw_sierpinski_zero_length_lines :
  option_map (existsb (fun l => (length l =? 1)%nat))
             (draw_sierpinski 0 9 200 65 0 0 65 130 65 8) = Some true.
Proof. vm_compute. reflexivity. Qed.

(** ** Machine integers in range *)

Lemma wrap_id z : in_range z -> wrap z = z.
Proof.
  unfold in_range, int_min, int_max, wrap. intros H.
  rewrite Z.mod_small; lia.
Qed.

Lemma add_id a b : in_range (a + b) -> add a b = a + b.
Proof. apply wrap_id. Qed.

Lemma sub_id a b : in_range (a - b) -> sub a b = a - b.
Proof. apply wrap_id. Qed.

(** ** Consecutive integers *)

Lemma zseq_length k n : length (zseq k n) = n.
Proof. revert k. induction n; simpl; intros; [reflexivity | now rewrite IHn]. Qed.

Lemma zseq_In i k n : In i (zseq k n) <-> k <= i < k + Z.of_nat n.
Proof.
  revert k. induction n as [|n IH]; intros k.
  - simpl. lia.
  - cbn [zseq In]. rewrite IH. lia.
Qed.

Lemma zseq_app k n m : zseq k (n + m) = zseq k n ++ zseq (k + Z.of_nat n) m.
Proof.
  revert k. induction n as [|n IH]; intros k.
  - simpl. now rewrite Z.add_0_r.
  - cbn [zseq Nat.add app]. rewrite IH. do 3 f_equal. lia.
Qed.

(** ** The loop combinator *)

Lemma for_loop_mono {St : Type} cond body incr :
  forall (fuel fuel' : nat) (s : St) l,
    (fuel <= fuel')%nat ->
    for_loop fuel cond body incr s = Some l ->
    for_loop fuel' cond body incr s = Some l.
Proof.
  induction fuel as [|fuel IH]; intros fuel' s l Hle H; [discriminate|].
  destruct fuel' as [|fuel']; [lia|].
  simpl in *. destruct (cond s); [|exact H].
  destruct (body s) as [s' out].
  destruct (for_loop fuel cond body incr (incr s')) as [rest|] eqn:E;
    [|discriminate].
  rewrite (IH fuel' _ rest); [exact H | lia | exact E].
Qed.

(** ** One octant

    The eight loops of [draw_line] are the same loop up to the axis that is
    stepped and the two directions.  [st k m dec] is the loop state after [k]
    steps on the major axis and [m] steps on the minor axis, [out k m] the
    call made there; [D] and [d] are the major and the minor extent. *)

Section Octant.
Context {St : Type}.
Variables (cond : St -> bool) (body : St -> St * list call) (incr : St -> St).
Variables (st : Z -> Z -> Z -> St) (out : Z -> Z -> call).
Variables D d : Z.
Hypothesis D_pos : 0 < D.
Hypothesis d_bounds : 0 <= d <= D.
Hypothesis cond_true : forall k m dec, 0 <= k <= D -> cond (st k m dec) = true.
Hypothesis cond_false : forall m dec, cond (st (D + 1) m dec) = false.
Hypothesis body_step : forall k m dec,
  0 <= k <= D -> 0 <= m -> - D < dec <= D ->
  (if dec <=? 0 then m + 1 else m) <= d ->
  snd (body (st k m dec)) = [out k (if dec <=? 0 then m + 1 else m)] /\
  incr (fst (body (st k m dec))) =
    st (k + 1) (if dec <=? 0 then m + 1 else m)
       ((if dec <=? 0 then dec + D else dec) - d).

Lemma octant_from (n : nat) :
  forall k m dec (fuel : nat),
    k + Z.of_nat n = D + 1 -> 0 <= k -> 0 <= m ->
    dec = D * (m + 1) - k * d -> 1 - d <= dec <= D ->
    (n < fuel)%nat ->
    for_loop fuel cond body incr (st k m dec) =
      Some (map (fun i => out i (i * d / D)) (zseq k n)).
Proof.
  induction n as [|n IH]; intros k m dec fuel Hk Hk0 Hm Hdec Hb Hfuel.
  - destruct fuel as [|fuel]; [lia|]. simpl.
    replace k with (D + 1) by lia. now rewrite cond_false.
  - destruct fuel as [|fuel]; [lia|].
    cbn [for_loop zseq map].
    rewrite cond_true by lia.
    set (m' := if dec <=? 0 then m + 1 else m).
    set (dec' := if dec <=? 0 then dec + D else dec).
    assert (Hdec' : dec' = D * (m' + 1) - k * d /\ 1 <= dec' <= D /\ 0 <= m').
    { subst m' dec'. destruct (Z.leb_spec dec 0); lia. }
    destruct Hdec' as (Hdec' & Hb' & Hm').
    assert (Hm'd : m' <= d) by nia.
    assert (Hq : k * d / D = m').
    { symmetry. apply (Z.div_unique _ _ _ (D - dec')); lia. }
    destruct (body_step k m dec ltac:(lia) Hm ltac:(lia) Hm'd) as [Hout Hnext].
    fold m' dec' in Hout, Hnext.
    destruct (body (st k m dec)) as [s' o]. simpl in Hout, Hnext.
    rewrite Hnext, (IH (k + 1) m' (dec' - d) fuel) by lia.
    now rewrite Hout, Hq.
Qed.

Lemma octant (fuel : nat) :
  (Z.to_nat (D + 1) < fuel)%nat ->
  for_loop fuel cond body incr (st 0 0 D) =
    Some (map (fun i => out i (i * d / D)) (zseq 0 (Z.to_nat (D + 1)))).
Proof.
  intros Hfuel. apply (octant_from _ 0 0 D fuel); lia.
Qed.
End Octant.

(** ** [draw_line] in closed form *)

Lemma minor_up a d q D : 0 <= a -> d = a ->
  Z.sgn a * (q * d / D) = q * d / D.
Proof.
  intros H ->. destruct (Z.eq_dec a 0) as [->|Hne].
  - rewrite Z.mul_0_r. reflexivity.
  - rewrite Z.sgn_pos by lia. apply Z.mul_1_l.
Qed.

Lemma minor_down a d q D : a <= 0 -> d = - a ->
  Z.sgn a * (q * d / D) = - (q * d / D).
Proof.
  intros H ->. destruct (Z.eq_dec a 0) as [->|Hne].
  - change (- 0) with 0. rewrite Z.mul_0_r. reflexivity.
  - rewrite Z.sgn_neg by lia. ring.
Qed.

Ltac int_ranges :=
  unfold coord, in_range, int_min, int_max in *.

Ltac unwrap :=
  repeat first
    [ rewrite add_id by (int_ranges; lia)
    | rewrite sub_id by (int_ranges; lia) ].

Lemma sub_diag x : sub x x = 0.
Proof. unfold sub. now rewrite Z.sub_diag. Qed.

Lemma draw_line_same x y ch fuel :
  coord x -> coord y -> (2 <= fuel)%nat ->
  draw_line fuel x y x y ch = Some [mvaddch (y + 1) x ch].
Proof.
  intros Hx Hy Hfuel. unfold draw_line.
  rewrite !Z.geb_leb, !Z.leb_refl. cbv zeta.
  rewrite !sub_diag. change (0 <=? 0) with true. cbv iota.
  destruct fuel as [|fuel]; [lia|].
  cbn [for_loop]. rewrite Z.leb_refl. change (0 <=? 0) with true.
  cbv iota beta. unwrap.
  destruct fuel as [|fuel]; [lia|].
  cbn [for_loop].
  replace (x + 1 <=? x) with false by (symmetry; apply Z.leb_gt; lia).
  reflexivity.
Qed.

Ltac arith_eq := repeat (try lia; f_equal).

(** The obligations of [octant] for one loop of [draw_line]. *)
Ltac octant_loop :=
  match goal with
  | |- 0 < _ => lia
  | |- _ <= _ <= _ => lia
  | |- (_ < _)%nat => lia
  | |- forall k m dec, _ -> _ = true =>
      intros; cbv beta iota; rewrite ?Z.geb_leb; apply Z.leb_le; lia
  | |- forall m dec, _ = false =>
      intros; cbv beta iota; rewrite ?Z.geb_leb; apply Z.leb_gt; lia
  | |- forall k m dec, _ -> _ -> _ -> _ -> _ /\ _ =>
      let H := fresh "H" in
      intros ? ? dec ? ? ? H; cbv beta iota;
      destruct (Z.leb_spec dec 0); cbv beta iota; cbn [fst snd];
      unwrap; split; arith_eq
  end.

Ltac octant_case st0 out0 D0 d0 :=
  match goal with
  | |- for_loop _ _ _ _ ?s = _ => change s with (st0 0 0 D0)
  end;
  rewrite (octant _ _ _ st0 out0 D0 d0); try octant_loop.

(** The closed form of [line_cells] in the octant where the extents are
    [DX] and [DY] (the values of the locals [dx] and [dy]). *)
Ltac closed_form DX DY :=
  match goal with
  | |- Some _ = Some (map _ (line_cells ?x0 ?y0 ?x1 ?y1)) =>
      f_equal; unfold line_cells; cbv zeta;
      replace (Z.abs (x1 - x0)) with DX by lia;
      replace (Z.abs (y1 - y0)) with DY by lia;
      replace ((x1 - x0 =? 0) && (y1 - y0 =? 0)) with false
        by (symmetry; apply andb_false_iff; rewrite !Z.eqb_neq; lia);
      match goal with
      | H : DY <= DX |- _ =>
          replace (DY <=? DX) with true by (symmetry; apply Z.leb_le; lia)
      | H : DX < DY |- _ =>
          replace (DY <=? DX) with false by (symmetry; apply Z.leb_gt; lia)
      end;
      rewrite map_map; apply map_ext_in;
      let i := fresh "i" in
      let Hi := fresh "Hi" in
      intros i Hi; apply zseq_In in Hi; unfold plot_cell; cbn [fst snd];
      rewrite ?(minor_up (x1 - x0) DX) by lia;
      rewrite ?(minor_up (y1 - y0) DY) by lia;
      rewrite ?(minor_down (x1 - x0) DX) by lia;
      rewrite ?(minor_down (y1 - y0) DY) by lia;
      rewrite ?(Z.sgn_pos (x1 - x0)), ?(Z.sgn_pos (y1 - y0)) by lia;
      rewrite ?(Z.sgn_neg (x1 - x0)), ?(Z.sgn_neg (y1 - y0)) by lia;
      arith_eq
  end.

Theorem draw_line_cells x0 y0 x1 y1 ch fuel :
  coord x0 -> coord y0 -> coord x1 -> coord y1 ->
  (Z.to_nat (Z.max (Z.abs (x1 - x0)) (Z.abs (y1 - y0))) + 1 < fuel)%nat ->
  draw_line fuel x0 y0 x1 y1 ch =
    Some (map (plot_cell ch) (line_cells x0 y0 x1 y1)).
Proof.
  intros Hx0 Hy0 Hx1 Hy1 Hfuel.
  assert (Hnd : (x1 = x0 /\ y1 = y0) \/ x1 <> x0 \/ y1 <> y0) by lia.
  destruct Hnd as [[-> ->]|Hnd].
  { rewrite draw_line_same by (assumption || lia).
    unfold line_cells. now rewrite !Z.sub_diag. }
  unfold draw_line; rewrite !Z.geb_leb.
  destruct (Z.leb_spec x0 x1) as [Hdx|Hdx]; cbv zeta; unwrap;
    (destruct (Z.leb_spec y0 y1) as [Hdy|Hdy]; unwrap);
    match goal with |- context [if ?d <=? ?D then _ else _] =>
      destruct (Z.leb_spec d D) as [Hs|Hs] end.
  - (* x up, y up, x major *)
    octant_case (fun k m dec : Z => (k + x0, m + y0, dec))
                (fun k m => mvaddch (m + y0) (k + x0) ch)
                (x1 - x0) (y1 - y0).
    closed_form (x1 - x0) (y1 - y0).
  - (* x up, y up, y major *)
    octant_case (fun k m dec : Z => (m + x0, k + y0, dec))
                (fun k m => mvaddch (k + y0) (m + x0) ch)
                (y1 - y0) (x1 - x0).
    closed_form (x1 - x0) (y1 - y0).
  - (* x up, y down, x major *)
    octant_case (fun k m dec : Z => (k + x0, - m + y0, dec))
                (fun k m => mvaddch (- m + y0) (k + x0) ch)
                (x1 - x0) (y0 - y1).
    closed_form (x1 - x0) (y0 - y1).
  - (* x up, y down, y major *)
    octant_case (fun k m dec : Z => (m + x0, - k + y0, dec))
                (fun k m => mvaddch (- k + y0) (m + x0) ch)
                (y0 - y1) (x1 - x0).
    closed_form (x1 - x0) (y0 - y1).
  - (* x down, y up, x major *)
    octant_case (fun k m dec : Z => (- k + x0, m + y0, dec))
                (fun k m => mvaddch (m + y0) (- k + x0) ch)
                (x0 - x1) (y1 - y0).
    closed_form (x0 - x1) (y1 - y0).
  - (* x down, y up, y major *)
    octant_case (fun k m dec : Z => (- m + x0, k + y0, dec))
                (fun k m => mvaddch (k + y0) (- m + x0) ch)
                (y1 - y0) (x0 - x1).
    closed_form (x0 - x1) (y1 - y0).
  - (* x down, y down, x major *)
    octant_case (fun k m dec : Z => (- k + x0, - m + y0, dec))
                (fun k m => mvaddch (- m + y0) (- k + x0) ch)
                (x0 - x1) (y0 - y1).
    closed_form (x0 - x1) (y0 - y1).
  - (* x down, y down, y major *)
    octant_case (fun k m dec : Z => (- m + x0, - k + y0, dec))
                (fun k m => mvaddch (- k + y0) (- m + x0) ch)
                (y0 - y1) (x0 - x1).
    closed_form (x0 - x1) (y0 - y1).
Qed.

Lemma cells_plot_cell ch l : cells (map (plot_cell ch) l) = l.
Proof.
  unfold cells. rewrite map_map. rewrite <- (map_id l) at 2.
  apply map_ext. now intros [x y].
Qed.

(** [draw_line] returns, and what it returns is fixed by its arguments. *)
Lemma draw_line_mono fuel fuel' x0 y0 x1 y1 ch l :
  (fuel <= fuel')%nat ->
  draw_line fuel x0 y0 x1 y1 ch = Some l ->
  draw_line fuel' x0 y0 x1 y1 ch = Some l.
Proof.
  intros Hle. unfold draw_line.
  repeat match goal with |- context [if ?b then _ else _] => destruct b end;
    apply for_loop_mono; exact Hle.
Qed.

Lemma draw_line_result x0 y0 x1 y1 ch fuel l :
  coord x0 -> coord y0 -> coord x1 -> coord y1 ->
  draw_line fuel x0 y0 x1 y1 ch = Some l ->
  l = line ch x0 y0 x1 y1.
Proof.
  intros Hx0 Hy0 Hx1 Hy1 H.
  set (n := (Z.to_nat (Z.max (Z.abs (x1 - x0)) (Z.abs (y1 - y0))) + 2)%nat).
  apply (draw_line_mono fuel (Nat.max fuel n)) in H; [|lia].
  rewrite draw_line_cells in H by (assumption || lia).
  unfold line. congruence.
Qed.

Lemma draw_line_returns x0 y0 x1 y1 ch :
  coord x0 -> coord y0 -> coord x1 -> coord y1 ->
  returns (fun fuel => draw_line fuel x0 y0 x1 y1 ch) (line ch x0 y0 x1 y1).
Proof.
  intros Hx0 Hy0 Hx1 Hy1. split.
  - exists (Z.to_nat (Z.max (Z.abs (x1 - x0)) (Z.abs (y1 - y0))) + 2)%nat.
    apply draw_line_cells; try assumption. lia.
  - intros fuel l. now apply draw_line_result.
Qed.

Lemma cells_line ch x0 y0 x1 y1 :
  cells (line ch x0 y0 x1 y1) = line_cells x0 y0 x1 y1.
Proof. apply cells_plot_cell. Qed.

(** ** The plotted sequence *)

(** The quotient grows by 0 or by 1 at each step of the major axis. *)
Lemma quotient_step i d D :
  0 < D -> 0 <= d <= D -> 0 <= (i + 1) * d / D - i * d / D <= 1.
Proof.
  intros HD Hd.
  replace ((i + 1) * d) with (i * d + d) by ring.
  split.
  - apply Z.le_0_sub, Z.div_le_mono; lia.
  - assert (H : (i * d + d) / D <= (i * d + 1 * D) / D)
      by (apply Z.div_le_mono; lia).
    rewrite Z.div_add in H by lia. lia.
Qed.

Lemma quotient_last d D : 0 < D -> D * d / D = d.
Proof. intros HD. rewrite Z.mul_comm. apply Z.div_mul. lia. Qed.

Lemma connected8_map_zseq (f : Z -> Z * Z) n :
  forall k,
    (forall i, k <= i < k + Z.of_nat n - 1 -> adjacent8 (f i) (f (i + 1)) = true) ->
    connected8 (map f (zseq k n)) = true.
Proof.
  induction n as [|n IH]; intros k H; [reflexivity|].
  destruct n as [|n]; [reflexivity|].
  change (connected8 (map f (zseq k (S (S n)))))
    with (adjacent8 (f k) (f (k + 1)) &&
          connected8 (map f (zseq (k + 1) (S n)))).
  rewrite H by lia. rewrite IH; [reflexivity|].
  intros i Hi. apply H. lia.
Qed.

Lemma NoDup_map_zseq (f : Z -> Z * Z) n :
  forall k,
    (forall i j, k <= i -> i < j -> f i <> f j) ->
    NoDup (map f (zseq k n)).
Proof.
  induction n as [|n IH]; intros k H; cbn [zseq map]; constructor.
  - rewrite in_map_iff. intros (j & Hj & Hin). apply zseq_In in Hin.
    apply (H k j); try lia. now symmetry.
  - apply IH. intros i j Hi Hij. apply H; lia.
Qed.

Lemma last_map_zseq (f : Z -> Z * Z) n k dflt :
  last (map f (zseq k (S n))) dflt = f (k + Z.of_nat n).
Proof.
  replace (S n) with (n + 1)%nat by lia.
  rewrite zseq_app, map_app. cbn [zseq map]. apply last_last.
Qed.

(** The direction in which a coordinate moves; a coordinate that does not
    move is stepped by no iteration, so its direction is immaterial. *)
Lemma sgn_dir a q D :
  exists s, (s = 1 \/ s = -1) /\ a = s * Z.abs a /\
            Z.sgn a * (q * Z.abs a / D) = s * (q * Z.abs a / D) /\
            forall k, a <> 0 -> Z.sgn a * k = s * k.
Proof.
  destruct (Z.lt_trichotomy a 0) as [H|[->|H]].
  - exists (-1). rewrite Z.sgn_neg by lia. repeat split; try lia.
  - exists 1. repeat split; try lia.
    change (Z.abs 0) with 0. now rewrite Z.mul_0_r.
  - exists 1. rewrite Z.sgn_pos by lia. repeat split; try lia.
Qed.

(** Unless the endpoints are equal, the plotted cells are those of one
    octant: extents [D >= d >= 0] and directions [sx] and [sy]. *)
Lemma line_cells_form x0 y0 x1 y1 :
  x1 <> x0 \/ y1 <> y0 ->
  exists D d sx sy,
    0 < D /\ 0 <= d <= D /\ (sx = 1 \/ sx = -1) /\ (sy = 1 \/ sy = -1) /\
    D = Z.max (Z.abs (x1 - x0)) (Z.abs (y1 - y0)) /\
    d = Z.min (Z.abs (x1 - x0)) (Z.abs (y1 - y0)) /\
    ((Z.abs (y1 - y0) <= Z.abs (x1 - x0) /\
      x1 = x0 + sx * D /\ y1 = y0 + sy * d /\
      line_cells x0 y0 x1 y1 =
        map (fun k => (x0 + sx * k, y0 + sy * (k * d / D)))
            (zseq 0 (Z.to_nat (D + 1)))) \/
     (Z.abs (x1 - x0) < Z.abs (y1 - y0) /\
      x1 = x0 + sx * d /\ y1 = y0 + sy * D /\
      line_cells x0 y0 x1 y1 =
        map (fun k => (x0 + sx * (k * d / D), y0 + sy * k))
            (zseq 0 (Z.to_nat (D + 1))))).
Proof.
  intros Hnd. unfold line_cells. cbv zeta.
  replace ((x1 - x0 =? 0) && (y1 - y0 =? 0)) with false
    by (symmetry; apply andb_false_iff; rewrite !Z.eqb_neq; lia).
  set (dx := x1 - x0). set (dy := y1 - y0).
  assert (Hx : x1 = x0 + dx) by (subst dx; lia).
  assert (Hy : y1 = y0 + dy) by (subst dy; lia).
  destruct (Z.leb_spec (Z.abs dy) (Z.abs dx)) as [Hs|Hs].
  - exists (Z.abs dx), (Z.abs dy).
    destruct (sgn_dir dx 0 1) as (sx & Hsx & Hdx & _ & Hkx).
    destruct (sgn_dir dy 0 1) as (sy & Hsy & Hdy & _ & _).
    exists sx, sy. repeat split; try lia.
    left. repeat split; try lia.
    apply map_ext. intros k. f_equal.
    + rewrite Hkx by lia. reflexivity.
    + destruct (sgn_dir dy k (Z.abs dx)) as (sy' & Hsy' & Hdy' & Hq & _).
      assert (dy = 0 \/ sy' = sy) as [H0|H0] by nia.
      * rewrite H0. change (Z.abs 0) with 0. rewrite Z.mul_0_r.
        change (0 / Z.abs dx) with 0. now rewrite !Z.mul_0_r.
      * rewrite Hq. now subst sy'.
  - exists (Z.abs dy), (Z.abs dx).
    destruct (sgn_dir dx 0 1) as (sx & Hsx & Hdx & _ & _).
    destruct (sgn_dir dy 0 1) as (sy & Hsy & Hdy & _ & Hky).
    exists sx, sy. repeat split; try lia.
    right. repeat split; try lia.
    apply map_ext. intros k. f_equal.
    + destruct (sgn_dir dx k (Z.abs dy)) as (sx' & Hsx' & Hdx' & Hq & _).
      assert (dx = 0 \/ sx' = sx) as [H0|H0] by nia.
      * rewrite H0. change (Z.abs 0) with 0. rewrite Z.mul_0_r.
        change (0 / Z.abs dy) with 0. now rewrite !Z.mul_0_r.
      * rewrite Hq. now subst sx'.
    + rewrite Hky by lia. reflexivity.
Qed.

Ltac line_form x0 y0 x1 y1 Hnd :=
  let D := fresh "D" in
  let d := fresh "d" in
  let sx := fresh "sx" in
  let sy := fresh "sy" in
  let HD := fresh "HD" in
  let Hd := fresh "Hd" in
  let Hsx := fresh "Hsx" in
  let Hsy := fresh "Hsy" in
  let HDmax := fresh "HDmax" in
  let Hdmin := fresh "Hdmin" in
  let Hform := fresh "Hform" in
  destruct (line_cells_form x0 y0 x1 y1 Hnd)
    as (D & d & sx & sy & HD & Hd & Hsx & Hsy & HDmax & Hdmin & Hform).

Lemma line_cells_length x0 y0 x1 y1 :
  length (line_cells x0 y0 x1 y1) =
    Z.to_nat (Z.max (Z.abs (x1 - x0)) (Z.abs (y1 - y0)) + 1).
Proof.
  assert (Hnd : (x1 = x0 /\ y1 = y0) \/ x1 <> x0 \/ y1 <> y0) by lia.
  destruct Hnd as [[-> ->]|Hnd].
  - unfold line_cells. now rewrite !Z.sub_diag.
  - line_form x0 y0 x1 y1 Hnd.
    destruct Hform as [(_ & _ & _ & ->)|(_ & _ & _ & ->)];
      rewrite length_map, zseq_length; lia.
Qed.

Lemma line_cells_NoDup x0 y0 x1 y1 : NoDup (line_cells x0 y0 x1 y1).
Proof.
  assert (Hnd : (x1 = x0 /\ y1 = y0) \/ x1 <> x0 \/ y1 <> y0) by lia.
  destruct Hnd as [[-> ->]|Hnd].
  - unfold line_cells. rewrite !Z.sub_diag. cbn.
    constructor; [intros []|constructor].
  - line_form x0 y0 x1 y1 Hnd.
    destruct Hform as [(_ & _ & _ & ->)|(_ & _ & _ & ->)];
      apply NoDup_map_zseq; intros i j Hi Hij Heq;
      injection Heq as Hx Hy; destruct Hsx; destruct Hsy; subst; lia.
Qed.

Lemma line_cells_connected x0 y0 x1 y1 :
  connected8 (line_cells x0 y0 x1 y1) = true.
Proof.
  assert (Hnd : (x1 = x0 /\ y1 = y0) \/ x1 <> x0 \/ y1 <> y0) by lia.
  destruct Hnd as [[-> ->]|Hnd].
  - unfold line_cells. now rewrite !Z.sub_diag.
  - line_form x0 y0 x1 y1 Hnd.
    destruct Hform as [(_ & _ & _ & ->)|(_ & _ & _ & ->)];
      apply connected8_map_zseq; intros i Hi;
      pose proof (quotient_step i d D HD Hd) as Hq;
      unfold adjacent8; cbn [fst snd];
      apply andb_true_iff; split; apply Z.leb_le;
      destruct Hsx; destruct Hsy; subst sx sy; lia.
Qed.

Lemma line_cells_ends x0 y0 x1 y1 :
  x1 <> x0 \/ y1 <> y0 ->
  hd_error (line_cells x0 y0 x1 y1) = Some (x0, y0) /\
  last (line_cells x0 y0 x1 y1) (x0, y0) = (x1, y1).
Proof.
  intros Hnd. line_form x0 y0 x1 y1 Hnd.
  assert (Hn : Z.to_nat (D + 1) = S (Z.to_nat D)) by lia.
  assert (HDn : Z.of_nat (Z.to_nat D) = D) by lia.
  destruct Hform as [(_ & Hx & Hy & ->)|(_ & Hx & Hy & ->)];
    rewrite Hn; split.
  - cbn [zseq map hd_error]. change (0 * d / D) with 0. do 2 f_equal; lia.
  - rewrite last_map_zseq, Z.add_0_l, HDn, quotient_last by lia.
    now rewrite <- Hx, <- Hy.
  - cbn [zseq map hd_error]. change (0 * d / D) with 0. do 2 f_equal; lia.
  - rewrite last_map_zseq, Z.add_0_l, HDn, quotient_last by lia.
    now rewrite <- Hx, <- Hy.
Qed.

(** ** The two directions of a segment *)

Lemma In_map_zseq (f : Z -> Z * Z) n c :
  In c (map f (zseq 0 n)) <-> exists k, 0 <= k < Z.of_nat n /\ f k = c.
Proof.
  rewrite in_map_iff. split; intros (k & H1 & H2); exists k.
  - apply zseq_In in H2. split; [lia | exact H1].
  - split; [exact H2 | apply zseq_In; lia].
Qed.

Section Reverse.
(** [P a b] is the cell [a] steps along the major axis and [b] steps along
    the minor axis away from the first endpoint. *)
Variable P : Z -> Z -> Z * Z.
Hypothesis P_inj : forall a b a' b', P a b = P a' b' -> a = a' /\ b = b'.
Variables D d : Z.
Hypothesis D_pos : 0 < D.
Hypothesis d_bounds : 0 <= d <= D.

(** From the first endpoint the quotient is rounded down; seen from the
    second endpoint that is rounding up.  Both traversals cover the same cells
    exactly when no quotient needs rounding. *)
Lemma octant_reverse_iff :
  same_cells (map (fun k => P k (k * d / D)) (zseq 0 (Z.to_nat (D + 1))))
             (map (fun k => P (D - k) (d - k * d / D))
                  (zseq 0 (Z.to_nat (D + 1))))
  <-> d = 0 \/ d = D.
Proof.
  split.
  - intros Hsame.
    assert (Hcases : d = 0 \/ d = D \/ 0 < d < D) by lia.
    destruct Hcases as [H|[H|H]]; [now left | now right | exfalso].
    destruct (Hsame (P 1 (1 * d / D))) as [Hin _].
    rewrite !In_map_zseq in Hin.
    destruct Hin as (k & Hk & Heq); [exists 1; split; [lia | reflexivity]|].
    apply P_inj in Heq. destruct Heq as [Hmaj Hmin].
    assert (k = D - 1) by lia. subst k.
    rewrite Z.mul_1_l, (Z.div_small d D) in Hmin by lia.
    assert (Hq : (D - 1) * d / D = d - 1).
    { symmetry. apply (Z.div_unique _ _ _ (D - d)); lia. }
    lia.
  - intros Hd c. rewrite !In_map_zseq.
    assert (Hq : forall k, d - (D - k) * d / D = k * d / D).
    { intros k. destruct Hd as [->| ->].
      - rewrite !Z.mul_0_r. reflexivity.
      - rewrite !Z.div_mul by lia. lia. }
    split; intros (k & Hk & Heq); exists (D - k); (split; [lia|]);
      rewrite <- Heq.
    + rewrite Hq. f_equal. lia.
    + rewrite <- (Hq (D - k)). do 3 f_equal. lia.
Qed.
End Reverse.

Lemma line_cells_reverse_iff x0 y0 x1 y1 :
  same_cells (line_cells x0 y0 x1 y1) (line_cells x1 y1 x0 y0) <->
  x1 = x0 \/ y1 = y0 \/ Z.abs (x1 - x0) = Z.abs (y1 - y0).
Proof.
  assert (Hnd : (x1 = x0 /\ y1 = y0) \/ x1 <> x0 \/ y1 <> y0) by lia.
  destruct Hnd as [[-> ->]|Hnd].
  { split; [now left | intros _ c; reflexivity]. }
  assert (Hnd' : x0 <> x1 \/ y0 <> y1) by lia.
  line_form x0 y0 x1 y1 Hnd.
  destruct (line_cells_form x1 y1 x0 y0 Hnd')
    as (D' & d' & sx' & sy' & _ & _ & Hsx' & Hsy' & HD' & Hd' & Hform').
  assert (HDD : D' = D) by lia. assert (Hdd : d' = d) by lia.
  clear HD' Hd'. subst D' d'.
  destruct Hform as [(Hs & Hx & Hy & ->)|(Hs & Hx & Hy & ->)];
    (destruct Hform' as [(Hs' & Hx' & Hy' & ->)|(Hs' & Hx' & Hy' & ->)];
     [|]; try lia).
  - (* x major *)
    transitivity (d = 0 \/ d = D); [|lia].
    rewrite <- (octant_reverse_iff (fun a b => (x0 + sx * a, y0 + sy * b)));
      try assumption.
    + assert (Heq : forall k,
                (x1 + sx' * k, y1 + sy' * (k * d / D)) =
                (x0 + sx * (D - k), y0 + sy * (d - k * d / D))).
      { intros k. f_equal; [nia|].
        assert (d = 0 \/ sy' = - sy) as [Hz|Hz] by nia.
        - rewrite Hz in Hy, Hy' |- *. rewrite Z.mul_0_r.
          change (0 / D) with 0. lia.
        - nia. }
      rewrite (map_ext _ _ Heq). reflexivity.
    + intros a b a' b' Heq. injection Heq as H1 H2. nia.
  - (* y major *)
    transitivity (d = 0 \/ d = D); [|lia].
    rewrite <- (octant_reverse_iff (fun a b => (x0 + sx * b, y0 + sy * a)));
      try assumption.
    + assert (Heq : forall k,
                (x1 + sx' * (k * d / D), y1 + sy' * k) =
                (x0 + sx * (d - k * d / D), y0 + sy * (D - k))).
      { intros k. f_equal; [|nia].
        assert (d = 0 \/ sx' = - sx) as [Hz|Hz] by nia.
        - rewrite Hz in Hx, Hx' |- *. rewrite Z.mul_0_r.
          change (0 / D) with 0. lia.
        - nia. }
      rewrite (map_ext _ _ Heq). reflexivity.
    + intros a b a' b' Heq. injection Heq as H1 H2. nia.
Qed.


(** ** Midpoints *)

(** Within the coordinate range the midpoint expression of the source is
    [b + (a - b) / 2] with the quotient truncated toward zero, a value
    between [a] and [b]. *)
Lemma midpoint_value a b : coord a -> coord b ->
  add b (div (sub a b) 2) = b + Z.quot (a - b) 2.
Proof.
  intros Ha Hb. unfold div. unwrap.
  pose proof (Z.quot_rem' (a - b) 2) as Hqr.
  assert (Hr : Z.abs (Z.rem (a - b) 2) < 2)
    by (pose proof (Z.rem_bound_abs (a - b) 2); lia).
  rewrite (wrap_id (Z.quot (a - b) 2)) by (int_ranges; lia).
  apply add_id. int_ranges. lia.
Qed.

Lemma midpoint_between a b : coord a -> coord b ->
  Z.min a b <= add b (div (sub a b) 2) <= Z.max a b.
Proof.
  intros Ha Hb. rewrite midpoint_value by assumption.
  pose proof (Z.quot_rem' (a - b) 2) as Hqr.
  pose proof (Z.rem_bound_abs (a - b) 2) as Hr.
  pose proof (Z.rem_sign_nz (a - b) 2) as Hs.
  destruct (Z.eq_dec (Z.rem (a - b) 2) 0) as [H0|H0]; [lia|].
  specialize (Hs ltac:(lia) H0).
  change (Z.abs 2) with 2 in Hr.
  pose proof (Z.sgn_spec (Z.rem (a - b) 2)).
  pose proof (Z.sgn_spec (a - b)). lia.
Qed.

Lemma midpoint_coord a b : coord a -> coord b ->
  coord (add b (div (sub a b) 2)).
Proof.
  intros Ha Hb. pose proof (midpoint_between a b Ha Hb).
  unfold coord in *. lia.
Qed.

(** ** The recursion of [draw_sierpinski] *)

(** Loop fuel that suffices for every line between coordinates in range. *)
Lemma line_fuel x0 y0 x1 y1 fuel :
  coord x0 -> coord y0 -> coord x1 -> coord y1 ->
  (Z.to_nat (2 ^ 31) < fuel)%nat ->
  (Z.to_nat (Z.max (Z.abs (x1 - x0)) (Z.abs (y1 - y0))) + 1 < fuel)%nat.
Proof. unfold coord. lia. Qed.

Lemma draw_sierpinski_lines ch (n : nat) :
  forall (stack fuel : nat) ax ay bx by_ cx cy,
    coord ax -> coord ay -> coord bx -> coord by_ -> coord cx -> coord cy ->
    Z.of_nat n <= int_max ->
    (n < stack)%nat -> (Z.to_nat (2 ^ 31) < fuel)%nat ->
    draw_sierpinski ch stack fuel ax ay bx by_ cx cy (Z.of_nat n) =
      Some (sierpinski_lines ch n ax ay bx by_ cx cy).
Proof.
  induction n as [|n IH];
    intros stack fuel ax ay bx by_ cx cy Hax Hay Hbx Hby Hcx Hcy Hn Hstack Hfuel;
    (destruct stack as [|stack]; [lia|]).
  - reflexivity.
  - cbn [draw_sierpinski sierpinski_lines].
    replace (Z.of_nat (S n) =? 0) with false by (symmetry; apply Z.eqb_neq; lia).
    replace (sub (Z.of_nat (S n)) 1) with (Z.of_nat n)
      by (rewrite sub_id; int_ranges; lia).
    assert (Hn' : Z.of_nat n <= int_max) by lia.
    assert (Hstack' : (n < stack)%nat) by lia.
    unfold mid_ab, mid_ac. cbn [fst snd].
    rewrite !IH by (try apply midpoint_coord; assumption).
    unfold line.
    rewrite !draw_line_cells by (try apply line_fuel; assumption).
    reflexivity.
Qed.

(** With a stack of at most [depth] nested calls the recursion does not get
    to its end. *)
Lemma draw_sierpinski_stack ch (stack : nat) :
  forall fuel ax ay bx by_ cx cy depth,
    Z.of_nat stack <= depth <= int_max ->
    draw_sierpinski ch stack fuel ax ay bx by_ cx cy depth = None.
Proof.
  induction stack as [|stack IH]; intros fuel ax ay bx by_ cx cy depth Hd.
  - reflexivity.
  - cbn [draw_sierpinski].
    replace (depth =? 0) with false by (symmetry; apply Z.eqb_neq; lia).
    rewrite IH; [reflexivity|].
    rewrite sub_id; int_ranges; lia.
Qed.

(** Below zero the depth only moves away from the terminal test: down to
    [int_min] no call returns. *)
Lemma draw_sierpinski_negative ch (stack : nat) :
  forall fuel ax ay bx by_ cx cy depth,
    int_min <= depth < 0 -> Z.of_nat stack <= depth - int_min + 1 ->
    draw_sierpinski ch stack fuel ax ay bx by_ cx cy depth = None.
Proof.
  induction stack as [|stack IH]; intros fuel ax ay bx by_ cx cy depth Hd Hs.
  - reflexivity.
  - cbn [draw_sierpinski].
    replace (depth =? 0) with false by (symmetry; apply Z.eqb_neq; lia).
    destruct stack as [|stack']; [reflexivity|].
    rewrite IH; [reflexivity| |]; rewrite sub_id; int_ranges; lia.
Qed.

(** A loop that is entered and whose body plots has plotted. *)
Lemma for_loop_first {St : Type} fuel cond body incr (s : St) l :
  cond s = true -> (forall s', snd (body s') <> []) ->
  for_loop fuel cond body incr s = Some l -> l <> [].
Proof.
  intros Hc Hb. destruct fuel as [|fuel]; [discriminate|].
  cbn [for_loop]. rewrite Hc. specialize (Hb s).
  destruct (body s) as [s' o]. cbn [snd] in Hb.
  destruct (for_loop fuel cond body incr (incr s')); [|discriminate].
  intros [= <-]. destruct o; [congruence | discriminate].
Qed.

(** A call of [draw_line] that returns has plotted. *)
Lemma draw_line_plots fuel x0 y0 x1 y1 ch l :
  draw_line fuel x0 y0 x1 y1 ch = Some l -> l <> [].
Proof.
  unfold draw_line. rewrite !Z.geb_leb.
  destruct (Z.leb_spec x0 x1); destruct (Z.leb_spec y0 y1); cbv zeta;
    match goal with |- context [if ?d <=? ?D then _ else _] =>
      destruct (d <=? D) end;
    apply for_loop_first;
    solve [ cbv beta iota; rewrite ?Z.geb_leb; apply Z.leb_le; lia
          | intros [[a b] c]; cbv beta iota; destruct (c <=? 0);
            cbn [snd]; discriminate ].
Qed.

(** A call of [draw_sierpinski] with a depth other than 0 that returns has
    drawn its three edges. *)
Lemma draw_sierpinski_draws ch stack fuel ax ay bx by_ cx cy depth out :
  depth <> 0 ->
  draw_sierpinski ch stack fuel ax ay bx by_ cx cy depth = Some out ->
  plots out <> [].
Proof.
  intros Hd. destruct stack as [|stack]; [discriminate|].
  cbn [draw_sierpinski].
  replace (depth =? 0) with false by (symmetry; apply Z.eqb_neq; lia).
  repeat match goal with
         | |- context [match ?e with Some _ => _ | None => _ end] =>
             let E := fresh "E" in destruct e eqn:E; [|discriminate]
         end.
  intros H. inversion H. unfold plots.
  rewrite !concat_app. cbn [concat].
  match goal with E : draw_line _ cx cy ax ay _ = Some _ |- _ =>
    apply draw_line_plots in E; rename E into Hca end.
  intros Habs.
  do 5 (apply app_eq_nil in Habs; destruct Habs as [_ Habs]).
  apply app_eq_nil in Habs. destruct Habs as [Habs _]. contradiction.
Qed.


Lemma draw_sierpinski_mono ch (stack : nat) :
  forall (stack' fuel fuel' : nat) ax ay bx by_ cx cy depth out,
    (stack <= stack')%nat -> (fuel <= fuel')%nat ->
    draw_sierpinski ch stack fuel ax ay bx by_ cx cy depth = Some out ->
    draw_sierpinski ch stack' fuel' ax ay bx by_ cx cy depth = Some out.
Proof.
  induction stack as [|stack IH];
    intros stack' fuel fuel' ax ay bx by_ cx cy depth out Hs Hf;
    [discriminate|].
  destruct stack' as [|stack']; [lia|].
  cbn [draw_sierpinski]. destruct (depth =? 0); [trivial|].
  repeat match goal with
         | |- context [match draw_sierpinski ch stack fuel ?a ?b ?c ?d ?e ?f ?g
                             with Some _ => _ | None => _ end] =>
             let E := fresh "E" in
             destruct (draw_sierpinski ch stack fuel a b c d e f g) eqn:E;
             [apply (IH stack' fuel fuel') in E; [rewrite E | lia | lia]
             | discriminate]
         | |- context [match draw_line fuel ?a ?b ?c ?d ?e
                             with Some _ => _ | None => _ end] =>
             let E := fresh "E" in
             destruct (draw_line fuel a b c d e) eqn:E;
             [apply (draw_line_mono fuel fuel') in E; [rewrite E | lia]
             | discriminate]
         end.
  trivial.
Qed.

Lemma draw_sierpinski_returns ch ax ay bx by_ cx cy depth :
  coord ax -> coord ay -> coord bx -> coord by_ -> coord cx -> coord cy ->
  0 <= depth <= int_max ->
  returns2 (fun stack fuel =>
              draw_sierpinski ch stack fuel ax ay bx by_ cx cy depth)
           (sierpinski_lines ch (Z.to_nat depth) ax ay bx by_ cx cy).
Proof.
  intros Hax Hay Hbx Hby Hcx Hcy Hd.
  assert (Hrun : forall stack fuel,
             (Z.to_nat depth < stack)%nat -> (Z.to_nat (2 ^ 31) < fuel)%nat ->
             draw_sierpinski ch stack fuel ax ay bx by_ cx cy depth =
               Some (sierpinski_lines ch (Z.to_nat depth) ax ay bx by_ cx cy)).
  { intros stack fuel Hs Hf.
    rewrite <- (Z2Nat.id depth) at 1 by lia.
    apply draw_sierpinski_lines; try assumption. lia. }
  split.
  - exists (S (Z.to_nat depth)), (S (Z.to_nat (2 ^ 31))). apply Hrun; lia.
  - intros stack fuel out H.
    apply (draw_sierpinski_mono ch stack
             (Nat.max stack (S (Z.to_nat depth))) fuel
             (Nat.max fuel (S (Z.to_nat (2 ^ 31))))) in H; try lia.
    rewrite Hrun in H by lia. congruence.
Qed.

(** The midpoint of the source against the floor of the mean. *)
Lemma midpoint_floor a b : coord a -> coord b ->
  add b (div (sub a b) 2) = (a + b) / 2 <-> b <= a \/ Z.even (a - b) = true.
Proof.
  intros Ha Hb. rewrite midpoint_value by assumption.
  pose proof (Z.quot_rem' (a - b) 2) as Hqr.
  pose proof (Z.rem_bound_abs (a - b) 2) as Hr.
  change (Z.abs 2) with 2 in Hr.
  pose proof (Z.div_mod (a + b) 2 ltac:(lia)) as Hdm.
  pose proof (Z.mod_pos_bound (a + b) 2 ltac:(lia)) as Hm.
  pose proof (Zmod_even (a - b)) as He.
  pose proof (Z.div_mod (a - b) 2 ltac:(lia)) as Hdm'.
  pose proof (Z.mod_pos_bound (a - b) 2 ltac:(lia)) as Hm'.
  destruct (Z.eq_dec (Z.rem (a - b) 2) 0) as [H0|H0].
  - destruct (Z.even (a - b)); lia.
  - pose proof (Z.rem_sign_nz (a - b) 2 ltac:(lia) H0) as Hs.
    pose proof (Z.sgn_spec (Z.rem (a - b) 2)).
    pose proof (Z.sgn_spec (a - b)).
    destruct (Z.even (a - b)); lia.
Qed.

(** ** Counting lines and plots *)

Lemma sierpinski_lines_count ch (n : nat) :
  forall ax ay bx by_ cx cy,
    2 * Z.of_nat (length (sierpinski_lines ch n ax ay bx by_ cx cy)) + 3 =
    3 * 3 ^ Z.of_nat n.
Proof.
  induction n as [|n IH]; intros ax ay bx by_ cx cy.
  - reflexivity.
  - cbn [sierpinski_lines]. rewrite !length_app. cbn [length].
    rewrite Nat2Z.inj_succ, Z.pow_succ_r by lia.
    rewrite !Nat2Z.inj_add.
    pose proof (IH (fst (mid_ab ax ay bx by_)) (snd (mid_ab ax ay bx by_))
                   bx by_ ax by_).
    pose proof (IH (fst (mid_ac ax ay cx cy)) (snd (mid_ac ax ay cx cy))
                   ax by_ cx cy).
    pose proof (IH ax ay (fst (mid_ab ax ay bx by_)) (snd (mid_ab ax ay bx by_))
                   (fst (mid_ac ax ay cx cy)) (snd (mid_ac ax ay cx cy))).
    lia.
Qed.

Lemma line_length ch x0 y0 x1 y1 :
  Z.of_nat (length (line ch x0 y0 x1 y1)) =
    Z.max (Z.abs (x1 - x0)) (Z.abs (y1 - y0)) + 1.
Proof. unfold line. rewrite length_map, line_cells_length. lia. Qed.

Lemma plots_app l1 l2 : plots (l1 ++ l2) = plots l1 ++ plots l2.
Proof. apply concat_app. Qed.

Lemma sierpinski_plots_grow ch (n : nat) :
  forall ax ay bx by_ cx cy,
    (length (plots (sierpinski_lines ch n ax ay bx by_ cx cy)) <
     length (plots (sierpinski_lines ch (S n) ax ay bx by_ cx cy)))%nat.
Proof.
  induction n as [|n IH]; intros ax ay bx by_ cx cy.
  - cbn [sierpinski_lines app plots concat length].
    rewrite !length_app.
    pose proof (line_length ch ax ay bx by_). lia.
  - change (sierpinski_lines ch (S (S n)) ax ay bx by_ cx cy) with
      (sierpinski_lines ch (S n) (fst (mid_ab ax ay bx by_))
         (snd (mid_ab ax ay bx by_)) bx by_ ax by_ ++
       sierpinski_lines ch (S n) (fst (mid_ac ax ay cx cy))
         (snd (mid_ac ax ay cx cy)) ax by_ cx cy ++
       sierpinski_lines ch (S n) ax ay (fst (mid_ab ax ay bx by_))
         (snd (mid_ab ax ay bx by_)) (fst (mid_ac ax ay cx cy))
         (snd (mid_ac ax ay cx cy)) ++
       [line ch ax ay bx by_; line ch bx by_ cx cy; line ch cx cy ax ay]).
    change (sierpinski_lines ch (S n) ax ay bx by_ cx cy) with
      (sierpinski_lines ch n (fst (mid_ab ax ay bx by_))
         (snd (mid_ab ax ay bx by_)) bx by_ ax by_ ++
       sierpinski_lines ch n (fst (mid_ac ax ay cx cy))
         (snd (mid_ac ax ay cx cy)) ax by_ cx cy ++
       sierpinski_lines ch n ax ay (fst (mid_ab ax ay bx by_))
         (snd (mid_ab ax ay bx by_)) (fst (mid_ac ax ay cx cy))
         (snd (mid_ac ax ay cx cy)) ++
       [line ch ax ay bx by_; line ch bx by_ cx cy; line ch cx cy ax ay]) at 1.
    rewrite !plots_app, !length_app.
    pose proof (IH (fst (mid_ab ax ay bx by_)) (snd (mid_ab ax ay bx by_))
                   bx by_ ax by_).
    pose proof (IH (fst (mid_ac ax ay cx cy)) (snd (mid_ac ax ay cx cy))
                   ax by_ cx cy).
    pose proof (IH ax ay (fst (mid_ab ax ay bx by_)) (snd (mid_ab ax ay bx by_))
                   (fst (mid_ac ax ay cx cy)) (snd (mid_ac ax ay cx cy))).
    lia.
Qed.

(** * The properties of the specification *)

(** ** The rasterizer *)

(** C1, as stated, fails: from (0,0) to (2,1) [draw_line] plots
    (0,0), (1,0), (2,1), and from (2,1) to (0,0) it plots (2,1), (1,1), (0,0).
    The cell (1,0) is covered in one direction only. *)
Lemma draw_line_direction_counterexample :
  returns (fun fuel => draw_line fuel 0 0 2 1 0)
          [mvaddch 0 0 0; mvaddch 0 1 0; mvaddch 1 2 0] /\
  returns (fun fuel => draw_line fuel 2 1 0 0 0)
          [mvaddch 1 2 0; mvaddch 1 1 0; mvaddch 0 0 0] /\
  ~ same_cells (cells [mvaddch 0 0 0; mvaddch 0 1 0; mvaddch 1 2 0])
               (cells [mvaddch 1 2 0; mvaddch 1 1 0; mvaddch 0 0 0]).
Proof.
  split; [|split].
  - apply (draw_line_returns 0 0 2 1 0); unfold coord; lia.
  - apply (draw_line_returns 2 1 0 0 0); unfold coord; lia.
  - intros H. destruct (H (1, 0)) as [H1 _].
    cbn in H1. destruct H1 as [H1|[H1|[H1|[]]]];
      [right; left; reflexivity | discriminate | discriminate | discriminate].
Qed.

(** C1, amended: for endpoints in the coordinate range, [draw_line] covers
    the same set of cells in both directions exactly when the segment is
    horizontal, vertical or an exact diagonal (equal endpoints included).  On
    every other segment the two directions round the minor coordinate toward
    different endpoints and the sets differ. *)
Theorem draw_line_direction x0 y0 x1 y1 ch :
  coord x0 -> coord y0 -> coord x1 -> coord y1 ->
  exists l01 l10,
    returns (fun fuel => draw_line fuel x0 y0 x1 y1 ch) l01 /\
    returns (fun fuel => draw_line fuel x1 y1 x0 y0 ch) l10 /\
    (same_cells (cells l01) (cells l10) <->
     x1 = x0 \/ y1 = y0 \/ Z.abs (x1 - x0) = Z.abs (y1 - y0)).
Proof.
  intros Hx0 Hy0 Hx1 Hy1.
  exists (line ch x0 y0 x1 y1), (line ch x1 y1 x0 y0).
  split; [now apply draw_line_returns|].
  split; [now apply draw_line_returns|].
  rewrite !cells_line. apply line_cells_reverse_iff.
Qed.

Lemma draw_line_direction_witness :
  exists l01 l10,
    returns (fun fuel => draw_line fuel 0 0 2 1 0) l01 /\
    returns (fun fuel => draw_line fuel 2 1 0 0 0) l10 /\
    (same_cells (cells l01) (cells l10) <->
     2 = 0 \/ 1 = 0 \/ Z.abs (2 - 0) = Z.abs (1 - 0)).
Proof.
  apply (draw_line_direction 0 0 2 1 0); unfold coord; lia.
Defined.

(** C2: with equal endpoints [draw_line] makes exactly one call of
    [mvaddch], but the accumulator starts at 0, so the first iteration steps
    y before it plots: the cell plotted is (x, y + 1), not the point (x, y)
    that the claim requires. *)
Theorem draw_line_equal_endpoints x y ch :
  coord x -> coord y ->
  returns (fun fuel => draw_line fuel x y x y ch) [mvaddch (y + 1) x ch] /\
  cells [mvaddch (y + 1) x ch] <> [(x, y)].
Proof.
  intros Hx Hy. split.
  - pose proof (draw_line_returns x y x y ch Hx Hy Hx Hy) as H.
    unfold line, line_cells in H. rewrite !Z.sub_diag in H. exact H.
  - cbn. intros [= H]. lia.
Qed.

Lemma draw_line_equal_endpoints_witness :
  returns (fun fuel => draw_line fuel 0 0 0 0 0) [mvaddch (0 + 1) 0 0] /\
  cells [mvaddch (0 + 1) 0 0] <> [(0, 0)].
Proof.
  apply (draw_line_equal_endpoints 0 0 0); unfold coord; lia.
Defined.

(** C4: the sequence is finite, and between two different endpoints it
    starts at the first and ends at the second.  With equal endpoints it is
    the single cell below the point, so that neither its first nor its last
    element is the endpoint: the same defect as in C2. *)
Theorem draw_line_ends x0 y0 x1 y1 ch :
  coord x0 -> coord y0 -> coord x1 -> coord y1 ->
  exists l,
    returns (fun fuel => draw_line fuel x0 y0 x1 y1 ch) l /\
    (x1 <> x0 \/ y1 <> y0 ->
     hd_error (cells l) = Some (x0, y0) /\
     last (cells l) (x0, y0) = (x1, y1)) /\
    (x1 = x0 /\ y1 = y0 -> cells l = [(x0, y0 + 1)]).
Proof.
  intros Hx0 Hy0 Hx1 Hy1. exists (line ch x0 y0 x1 y1).
  split; [now apply draw_line_returns|].
  rewrite cells_line. split.
  - apply line_cells_ends.
  - intros [-> ->]. unfold line_cells. now rewrite !Z.sub_diag.
Qed.

Lemma draw_line_ends_witness :
  exists l,
    returns (fun fuel => draw_line fuel 3 5 3 5 0) l /\
    (3 <> 3 \/ 5 <> 5 ->
     hd_error (cells l) = Some (3, 5) /\ last (cells l) (3, 5) = (3, 5)) /\
    (3 = 3 /\ 5 = 5 -> cells l = [(3, 5 + 1)]).
Proof.
  apply (draw_line_ends 3 5 3 5 0); unfold coord; lia.
Defined.

(** C7: for endpoints in the coordinate range, every cell that [draw_line]
    plots differs from the cell plotted before it by at most 1 in x and by at
    most 1 in y. *)
Theorem draw_line_connected x0 y0 x1 y1 ch :
  coord x0 -> coord y0 -> coord x1 -> coord y1 ->
  exists l,
    returns (fun fuel => draw_line fuel x0 y0 x1 y1 ch) l /\
    connected8 (cells l) = true.
Proof.
  intros Hx0 Hy0 Hx1 Hy1. exists (line ch x0 y0 x1 y1).
  split; [now apply draw_line_returns|].
  rewrite cells_line. apply line_cells_connected.
Qed.

Lemma draw_line_connected_witness :
  exists l,
    returns (fun fuel => draw_line fuel 65 0 0 65 0) l /\
    connected8 (cells l) = true.
Proof.
  apply (draw_line_connected 65 0 0 65 0); unfold coord; lia.
Defined.

(** C10: for endpoints in the coordinate range, [draw_line] makes exactly
    max(|x1 - x0|, |y1 - y0|) + 1 calls of [mvaddch], and no two of them are
    on the same cell. *)
Theorem draw_line_count x0 y0 x1 y1 ch :
  coord x0 -> coord y0 -> coord x1 -> coord y1 ->
  exists l,
    returns (fun fuel => draw_line fuel x0 y0 x1 y1 ch) l /\
    Z.of_nat (length l) = Z.max (Z.abs (x1 - x0)) (Z.abs (y1 - y0)) + 1 /\
    NoDup (cells l).
Proof.
  intros Hx0 Hy0 Hx1 Hy1. exists (line ch x0 y0 x1 y1).
  split; [now apply draw_line_returns|].
  split; [apply line_length|].
  rewrite cells_line. apply line_cells_NoDup.
Qed.

Lemma draw_line_count_witness :
  exists l,
    returns (fun fuel => draw_line fuel 0 65 130 65 0) l /\
    Z.of_nat (length l) = Z.max (Z.abs (130 - 0)) (Z.abs (65 - 65)) + 1 /\
    NoDup (cells l).
Proof.
  apply (draw_line_count 0 65 130 65 0); unfold coord; lia.
Defined.

(** ** The triangle generator *)

(** C3, as stated, fails on a negative depth: the only terminal test is
    [depth == 0], so that from depth -1 the recursion descends through
    -2, -3, ...  No stack of up to 2^31 nested calls lets the call return, and
    a call that returned would have drawn: depth -1 is never a no-op. *)
Lemma draw_sierpinski_negative_depth :
  (forall stack fuel : nat,
     Z.of_nat stack <= 2 ^ 31 ->
     draw_sierpinski 0 stack fuel 65 0 0 65 130 65 (-1) = None) /\
  ~ (exists stack fuel : nat,
       draw_sierpinski 0 stack fuel 65 0 0 65 130 65 (-1) = Some []).
Proof.
  split.
  - intros stack fuel Hs. apply draw_sierpinski_negative; int_ranges; lia.
  - intros (stack & fuel & H).
    apply draw_sierpinski_draws in H; [|lia]. now apply H.
Qed.

(** C3, amended: for vertices in the coordinate range and a depth from 0 to
    [int_max], [draw_sierpinski] terminates after exactly [depth] levels of
    recursion: it returns, with the same result, on every stack of more than
    [depth] nested calls, and on no smaller one.  A negative depth is not
    terminal: the call returns on no stack of up to [depth - int_min + 1]
    nested calls, and it cannot return without having drawn. *)
Theorem draw_sierpinski_terminates ch ax ay bx by_ cx cy depth :
  coord ax -> coord ay -> coord bx -> coord by_ -> coord cx -> coord cy ->
  in_range depth ->
  (0 <= depth ->
   exists out (fuel0 : nat), forall stack fuel : nat,
     (fuel0 <= fuel)%nat ->
     draw_sierpinski ch stack fuel ax ay bx by_ cx cy depth =
       if depth <? Z.of_nat stack then Some out else None) /\
  (depth < 0 ->
   (forall stack fuel : nat,
      Z.of_nat stack <= depth - int_min + 1 ->
      draw_sierpinski ch stack fuel ax ay bx by_ cx cy depth = None) /\
   (forall (stack fuel : nat) out,
      draw_sierpinski ch stack fuel ax ay bx by_ cx cy depth = Some out ->
      plots out <> [])).
Proof.
  intros Hax Hay Hbx Hby Hcx Hcy Hd. split.
  - intros Hpos.
    exists (sierpinski_lines ch (Z.to_nat depth) ax ay bx by_ cx cy),
           (S (Z.to_nat (2 ^ 31))).
    intros stack fuel Hfuel.
    destruct (Z.ltb_spec depth (Z.of_nat stack)) as [Hs|Hs].
    + rewrite <- (Z2Nat.id depth) at 1 by lia.
      apply draw_sierpinski_lines; try assumption; unfold in_range in Hd; lia.
    + apply draw_sierpinski_stack. unfold in_range in Hd. lia.
  - intros Hneg. split.
    + intros stack fuel Hs. apply draw_sierpinski_negative;
        unfold in_range in Hd; lia.
    + intros stack fuel out H.
      apply (draw_sierpinski_draws ch stack fuel ax ay bx by_ cx cy depth);
        [lia | exact H].
Qed.

Lemma draw_sierpinski_terminates_witness :
  (0 <= 4 ->
   exists out (fuel0 : nat), forall stack fuel : nat,
     (fuel0 <= fuel)%nat ->
     draw_sierpinski 0 stack fuel 65 0 0 65 130 65 4 =
       if 4 <? Z.of_nat stack then Some out else None) /\
  (4 < 0 ->
   (forall stack fuel : nat,
      Z.of_nat stack <= 4 - int_min + 1 ->
      draw_sierpinski 0 stack fuel 65 0 0 65 130 65 4 = None) /\
   (forall (stack fuel : nat) out,
      draw_sierpinski 0 stack fuel 65 0 0 65 130 65 4 = Some out ->
      plots out <> [])).
Proof.
  apply (draw_sierpinski_terminates 0 65 0 0 65 130 65 4);
    unfold coord, in_range, int_min, int_max; lia.
Defined.

(** C5, as stated, fails: on the triangle A = (0,0), B = (3,4), C = (8,4) the
    left triangle of the recursion is (2,2), (3,4), (0,4).  Its first vertex
    is the midpoint of A-B with the x coordinate rounded toward B, and its
    third vertex is (ax, by); neither is the floor midpoint of an edge. *)
Lemma draw_sierpinski_midpoints_counterexample :
  left_triangle 0 0 3 4 8 4 = ((2, 2), (3, 4), (0, 4)) /\
  ~ In (2, 2) [floor_mid (0, 0) (3, 4); floor_mid (0, 0) (8, 4);
               floor_mid (3, 4) (8, 4)] /\
  ~ In (0, 4) [floor_mid (0, 0) (3, 4); floor_mid (0, 0) (8, 4);
               floor_mid (3, 4) (8, 4)].
Proof.
  split; [reflexivity|].
  split; cbn; intros [H|[H|[H|[]]]]; discriminate.
Qed.

(** C5, amended: for vertices in the coordinate range and a depth other than
    0, [draw_sierpinski] recurses ([draw_sierpinski_step]) into the three
    triangles (M_AB, B, P), (M_AC, P, C) and (A, M_AB, M_AC), where
    M_AB = (bx + (ax - bx) / 2, ay + (by - ay) / 2) and
    M_AC = (ax + (cx - ax) / 2, ay + (cy - ay) / 2) with C's division, which
    truncates toward zero, and P = (ax, by).  A coordinate of M_AB or M_AC is
    the floor of the mean of the endpoints' coordinates exactly when the
    difference that is halved is non-negative or even; P is the floor midpoint
    of B-C exactly when ax is the floor of the mean of bx and cx and cy is by
    or by + 1. *)
Theorem draw_sierpinski_midpoints ch stack fuel ax ay bx by_ cx cy depth :
  coord ax -> coord ay -> coord bx -> coord by_ -> coord cx -> coord cy ->
  depth <> 0 ->
  draw_sierpinski ch (S stack) fuel ax ay bx by_ cx cy depth =
    draw_sierpinski_step ch stack fuel ax ay bx by_ cx cy depth /\
  (mid_ab ax ay bx by_ = floor_mid (ax, ay) (bx, by_) <->
   (bx <= ax \/ Z.even (ax - bx) = true) /\
   (ay <= by_ \/ Z.even (by_ - ay) = true)) /\
  (mid_ac ax ay cx cy = floor_mid (ax, ay) (cx, cy) <->
   (ax <= cx \/ Z.even (cx - ax) = true) /\
   (ay <= cy \/ Z.even (cy - ay) = true)) /\
  ((ax, by_) = floor_mid (bx, by_) (cx, cy) <->
   ax = (bx + cx) / 2 /\ by_ <= cy <= by_ + 1).
Proof.
  intros Hax Hay Hbx Hby Hcx Hcy Hd.
  split; [|split; [|split]].
  - cbn [draw_sierpinski].
    replace (depth =? 0) with false by (symmetry; apply Z.eqb_neq; lia).
    reflexivity.
  - unfold mid_ab, floor_mid. cbn [fst snd].
    rewrite <- (midpoint_floor ax bx), <- (midpoint_floor by_ ay) by assumption.
    rewrite (Z.add_comm ay by_).
    split; [intros [= H1 H2]; now split | intros [-> ->]; reflexivity].
  - unfold mid_ac, floor_mid. cbn [fst snd].
    rewrite <- (midpoint_floor cx ax), <- (midpoint_floor cy ay) by assumption.
    rewrite (Z.add_comm ax cx), (Z.add_comm ay cy).
    split; [intros [= H1 H2]; now split | intros [-> ->]; reflexivity].
  - unfold floor_mid. cbn [fst snd].
    split.
    + intros [= H1 H2]. split; [exact H1|].
      Z.to_euclidean_division_equations. lia.
    + intros [H1 H2]. f_equal; [exact H1|].
      Z.to_euclidean_division_equations. lia.
Qed.

Lemma draw_sierpinski_midpoints_witness :
  draw_sierpinski 0 (S 4) 200 65 0 0 65 130 65 4 =
    draw_sierpinski_step 0 4 200 65 0 0 65 130 65 4 /\
  (mid_ab 65 0 0 65 = floor_mid (65, 0) (0, 65) <->
   (0 <= 65 \/ Z.even (65 - 0) = true) /\
   (0 <= 65 \/ Z.even (65 - 0) = true)) /\
  (mid_ac 65 0 130 65 = floor_mid (65, 0) (130, 65) <->
   (65 <= 130 \/ Z.even (130 - 65) = true) /\
   (0 <= 65 \/ Z.even (65 - 0) = true)) /\
  ((65, 65) = floor_mid (0, 65) (130, 65) <->
   65 = (0 + 130) / 2 /\ 65 <= 65 <= 65 + 1).
Proof.
  apply (draw_sierpinski_midpoints 0 4 200 65 0 0 65 130 65 4);
    unfold coord; lia.
Defined.

(** C6: for vertices in the coordinate range and a depth from 0 to
    [int_max], [draw_sierpinski] calls [draw_line] exactly
    3 * (3 ^ depth - 1) / 2 times (0 times at depth 0, 3 times at depth 1,
    12 times at depth 2). *)
Theorem draw_sierpinski_edge_count ch ax ay bx by_ cx cy depth :
  coord ax -> coord ay -> coord bx -> coord by_ -> coord cx -> coord cy ->
  0 <= depth <= int_max ->
  exists out,
    returns2 (fun stack fuel =>
                draw_sierpinski ch stack fuel ax ay bx by_ cx cy depth) out /\
    Z.of_nat (length out) = 3 * (3 ^ depth - 1) / 2.
Proof.
  intros Hax Hay Hbx Hby Hcx Hcy Hd.
  exists (sierpinski_lines ch (Z.to_nat depth) ax ay bx by_ cx cy).
  split; [now apply draw_sierpinski_returns|].
  pose proof (sierpinski_lines_count ch (Z.to_nat depth) ax ay bx by_ cx cy)
    as Hcount.
  rewrite Z2Nat.id in Hcount by lia.
  apply (Z.div_unique _ _ _ 0); lia.
Qed.

Lemma draw_sierpinski_edge_count_witness :
  exists out,
    returns2 (fun stack fuel =>
                draw_sierpinski 0 stack fuel 65 0 0 65 130 65 2) out /\
    Z.of_nat (length out) = 3 * (3 ^ 2 - 1) / 2.
Proof.
  apply (draw_sierpinski_edge_count 0 65 0 0 65 130 65 2);
    unfold coord, int_max; lia.
Defined.

(** C8: for vertices in the coordinate range and a depth from 0 to
    [int_max - 1], [draw_sierpinski] makes strictly more calls of [mvaddch]
    at depth + 1 than at depth. *)
Theorem draw_sierpinski_plots_grow ch ax ay bx by_ cx cy depth :
  coord ax -> coord ay -> coord bx -> coord by_ -> coord cx -> coord cy ->
  0 <= depth < int_max ->
  exists out0 out1,
    returns2 (fun stack fuel =>
                draw_sierpinski ch stack fuel ax ay bx by_ cx cy depth)
             out0 /\
    returns2 (fun stack fuel =>
                draw_sierpinski ch stack fuel ax ay bx by_ cx cy (depth + 1))
             out1 /\
    (length (plots out0) < length (plots out1))%nat.
Proof.
  intros Hax Hay Hbx Hby Hcx Hcy Hd.
  exists (sierpinski_lines ch (Z.to_nat depth) ax ay bx by_ cx cy),
         (sierpinski_lines ch (Z.to_nat (depth + 1)) ax ay bx by_ cx cy).
  split; [apply draw_sierpinski_returns; try assumption; lia|].
  split; [apply draw_sierpinski_returns; try assumption; lia|].
  replace (Z.to_nat (depth + 1)) with (S (Z.to_nat depth)) by lia.
  apply sierpinski_plots_grow.
Qed.

Lemma draw_sierpinski_plots_grow_witness :
  exists out0 out1,
    returns2 (fun stack fuel =>
                draw_sierpinski 0 stack fuel 65 0 0 65 130 65 4) out0 /\
    returns2 (fun stack fuel =>
                draw_sierpinski 0 stack fuel 65 0 0 65 130 65 (4 + 1)) out1 /\
    (length (plots out0) < length (plots out1))%nat.
Proof.
  apply (draw_sierpinski_plots_grow 0 65 0 0 65 130 65 4);
    unfold coord, int_max; lia.
Defined.

(** C9: at depth 0 [draw_sierpinski] returns at once, whatever the
    triangle: it calls neither [draw_line] nor [mvaddch], and every surface
    is after the call what it was before. *)
Theorem draw_sierpinski_depth_0 ch ax ay bx by_ cx cy :
  exists out,
    returns2 (fun stack fuel =>
                draw_sierpinski ch stack fuel ax ay bx by_ cx cy 0) out /\
    out = [] /\ plots out = [] /\
    forall (surface : Type) (plot : Z -> Z -> chtype -> surface -> surface)
           (s : surface),
      render surface plot s (plots out) = s.
Proof.
  exists []. split; [split|].
  - exists 1%nat, 0%nat. reflexivity.
  - intros [|stack] fuel out H; [discriminate|].
    cbn in H. congruence.
  - repeat split.
Qed.

(** * Further properties of the code *)

(** ** More on [draw_line] *)

Lemma nth_error_map_zseq {A : Type} (f : Z -> A) (n : nat) :
  forall k i, 0 <= i < Z.of_nat n ->
    nth_error (map f (zseq k n)) (Z.to_nat i) = Some (f (k + i)).
Proof.
  induction n as [|n IH]; intros k i Hi; [lia|].
  destruct (Z.eq_dec i 0) as [->|Hne].
  - cbn. now rewrite Z.add_0_r.
  - replace (Z.to_nat i) with (S (Z.to_nat (i - 1))) by lia.
    cbn [zseq map nth_error]. rewrite IH by lia. f_equal. f_equal. lia.
Qed.

Lemma quotient_bounds k d D :
  0 < D -> 0 <= d -> 0 <= k <= D -> 0 <= k * d / D <= d.
Proof.
  intros HD Hd Hk. split.
  - apply Z.div_pos; nia.
  - apply Z.div_le_upper_bound; nia.
Qed.

(** X1: the cells of a line in closed form.  Between two different endpoints
    in the coordinate range, the k-th call of [mvaddch] (from 0) is k steps
    from the first endpoint along the axis of the larger extent, and
    floor(k * d / D) steps along the other axis, where D is the larger and d
    the smaller extent. *)
Theorem draw_line_kth x0 y0 x1 y1 ch :
  coord x0 -> coord y0 -> coord x1 -> coord y1 ->
  x1 <> x0 \/ y1 <> y0 ->
  exists l,
    returns (fun fuel => draw_line fuel x0 y0 x1 y1 ch) l /\
    (Z.abs (y1 - y0) <= Z.abs (x1 - x0) ->
     forall k, 0 <= k <= Z.abs (x1 - x0) ->
       nth_error l (Z.to_nat k) =
         Some (mvaddch
                 (y0 + Z.sgn (y1 - y0) *
                         (k * Z.abs (y1 - y0) / Z.abs (x1 - x0)))
                 (x0 + Z.sgn (x1 - x0) * k) ch)) /\
    (Z.abs (x1 - x0) < Z.abs (y1 - y0) ->
     forall k, 0 <= k <= Z.abs (y1 - y0) ->
       nth_error l (Z.to_nat k) =
         Some (mvaddch
                 (y0 + Z.sgn (y1 - y0) * k)
                 (x0 + Z.sgn (x1 - x0) *
                         (k * Z.abs (x1 - x0) / Z.abs (y1 - y0))) ch)).
Proof.
  intros Hx0 Hy0 Hx1 Hy1 Hnd. exists (line ch x0 y0 x1 y1).
  split; [now apply draw_line_returns|].
  unfold line, line_cells. cbv zeta.
  replace ((x1 - x0 =? 0) && (y1 - y0 =? 0)) with false
    by (symmetry; apply andb_false_iff; rewrite !Z.eqb_neq; lia).
  split; intros Hs k Hk.
  - replace (Z.abs (y1 - y0) <=? Z.abs (x1 - x0)) with true
      by (symmetry; apply Z.leb_le; lia).
    rewrite map_map, nth_error_map_zseq by lia. reflexivity.
  - replace (Z.abs (y1 - y0) <=? Z.abs (x1 - x0)) with false
      by (symmetry; apply Z.leb_gt; lia).
    rewrite map_map, nth_error_map_zseq by lia. reflexivity.
Qed.

Lemma draw_line_kth_witness :
  exists l,
    returns (fun fuel => draw_line fuel 0 0 5 (-2) 0) l /\
    (Z.abs (-2 - 0) <= Z.abs (5 - 0) ->
     forall k, 0 <= k <= Z.abs (5 - 0) ->
       nth_error l (Z.to_nat k) =
         Some (mvaddch
                 (0 + Z.sgn (-2 - 0) * (k * Z.abs (-2 - 0) / Z.abs (5 - 0)))
                 (0 + Z.sgn (5 - 0) * k) 0)) /\
    (Z.abs (5 - 0) < Z.abs (-2 - 0) ->
     forall k, 0 <= k <= Z.abs (-2 - 0) ->
       nth_error l (Z.to_nat k) =
         Some (mvaddch
                 (0 + Z.sgn (-2 - 0) * k)
                 (0 + Z.sgn (5 - 0) * (k * Z.abs (5 - 0) / Z.abs (-2 - 0)))
                 0)).
Proof.
  apply (draw_line_kth 0 0 5 (-2) 0); unfold coord; lia.
Defined.

Lemma line_cells_in_box x0 y0 x1 y1 :
  x1 <> x0 \/ y1 <> y0 ->
  Forall (in_box (Z.min x0 x1) (Z.max x0 x1) (Z.min y0 y1) (Z.max y0 y1))
         (line_cells x0 y0 x1 y1).
Proof.
  intros Hnd. line_form x0 y0 x1 y1 Hnd.
  destruct Hform as [(_ & Hx & Hy & ->)|(_ & Hx & Hy & ->)];
    apply Forall_forall; intros c Hc;
    apply in_map_iff in Hc; destruct Hc as (k & <- & Hk);
    apply zseq_In in Hk;
    pose proof (quotient_bounds k d D HD ltac:(lia) ltac:(lia)) as Hq;
    unfold in_box; cbn [fst snd];
    destruct Hsx; destruct Hsy; subst sx sy; lia.
Qed.

(** X2: between two different endpoints in the coordinate range, [draw_line]
    plots no cell outside the rectangle that the endpoints span. *)
Theorem draw_line_in_box x0 y0 x1 y1 ch :
  coord x0 -> coord y0 -> coord x1 -> coord y1 ->
  x1 <> x0 \/ y1 <> y0 ->
  exists l,
    returns (fun fuel => draw_line fuel x0 y0 x1 y1 ch) l /\
    Forall (in_box (Z.min x0 x1) (Z.max x0 x1) (Z.min y0 y1) (Z.max y0 y1))
           (cells l).
Proof.
  intros Hx0 Hy0 Hx1 Hy1 Hnd. exists (line ch x0 y0 x1 y1).
  split; [now apply draw_line_returns|].
  rewrite cells_line. now apply line_cells_in_box.
Qed.

Lemma draw_line_in_box_witness :
  exists l,
    returns (fun fuel => draw_line fuel 130 65 65 0 0) l /\
    Forall (in_box (Z.min 130 65) (Z.max 130 65) (Z.min 65 0) (Z.max 65 0))
           (cells l).
Proof.
  apply (draw_line_in_box 130 65 65 0 0); unfold coord; lia.
Defined.

(** X3: the staircase.  Where the x extent is the larger one, [draw_line]
    plots exactly one cell in every column from x0 to x1, in that order;
    where the y extent is larger, one cell in every row from y0 to y1. *)
Theorem draw_line_staircase x0 y0 x1 y1 ch :
  coord x0 -> coord y0 -> coord x1 -> coord y1 ->
  x1 <> x0 \/ y1 <> y0 ->
  exists l,
    returns (fun fuel => draw_line fuel x0 y0 x1 y1 ch) l /\
    (Z.abs (y1 - y0) <= Z.abs (x1 - x0) ->
     map fst (cells l) =
       map (fun k => x0 + Z.sgn (x1 - x0) * k)
           (zseq 0 (Z.to_nat (Z.abs (x1 - x0) + 1)))) /\
    (Z.abs (x1 - x0) < Z.abs (y1 - y0) ->
     map snd (cells l) =
       map (fun k => y0 + Z.sgn (y1 - y0) * k)
           (zseq 0 (Z.to_nat (Z.abs (y1 - y0) + 1)))).
Proof.
  intros Hx0 Hy0 Hx1 Hy1 Hnd. exists (line ch x0 y0 x1 y1).
  split; [now apply draw_line_returns|].
  rewrite cells_line. unfold line_cells. cbv zeta.
  replace ((x1 - x0 =? 0) && (y1 - y0 =? 0)) with false
    by (symmetry; apply andb_false_iff; rewrite !Z.eqb_neq; lia).
  split; intros Hs.
  - replace (Z.abs (y1 - y0) <=? Z.abs (x1 - x0)) with true
      by (symmetry; apply Z.leb_le; lia).
    now rewrite map_map.
  - replace (Z.abs (y1 - y0) <=? Z.abs (x1 - x0)) with false
      by (symmetry; apply Z.leb_gt; lia).
    now rewrite map_map.
Qed.

Lemma draw_line_staircase_witness :
  exists l,
    returns (fun fuel => draw_line fuel 0 65 65 0 0) l /\
    (Z.abs (0 - 65) <= Z.abs (65 - 0) ->
     map fst (cells l) =
       map (fun k => 0 + Z.sgn (65 - 0) * k)
           (zseq 0 (Z.to_nat (Z.abs (65 - 0) + 1)))) /\
    (Z.abs (65 - 0) < Z.abs (0 - 65) ->
     map snd (cells l) =
       map (fun k => 65 + Z.sgn (0 - 65) * k)
           (zseq 0 (Z.to_nat (Z.abs (0 - 65) + 1)))).
Proof.
  apply (draw_line_staircase 0 65 65 0 0); unfold coord; lia.
Defined.

(** X4: straight lines.  A horizontal segment is plotted on its row only, a
    vertical one on its column only, and an exact diagonal steps both
    coordinates at every call: the accumulator never rounds there. *)
Theorem draw_line_straight x0 y0 x1 y1 ch :
  coord x0 -> coord y0 -> coord x1 -> coord y1 ->
  x1 <> x0 \/ y1 <> y0 ->
  exists l,
    returns (fun fuel => draw_line fuel x0 y0 x1 y1 ch) l /\
    (y1 = y0 ->
     cells l = map (fun k => (x0 + Z.sgn (x1 - x0) * k, y0))
                   (zseq 0 (Z.to_nat (Z.abs (x1 - x0) + 1)))) /\
    (x1 = x0 ->
     cells l = map (fun k => (x0, y0 + Z.sgn (y1 - y0) * k))
                   (zseq 0 (Z.to_nat (Z.abs (y1 - y0) + 1)))) /\
    (Z.abs (x1 - x0) = Z.abs (y1 - y0) ->
     cells l = map (fun k => (x0 + Z.sgn (x1 - x0) * k,
                              y0 + Z.sgn (y1 - y0) * k))
                   (zseq 0 (Z.to_nat (Z.abs (x1 - x0) + 1)))).
Proof.
  intros Hx0 Hy0 Hx1 Hy1 Hnd. exists (line ch x0 y0 x1 y1).
  split; [now apply draw_line_returns|].
  rewrite cells_line. unfold line_cells. cbv zeta.
  replace ((x1 - x0 =? 0) && (y1 - y0 =? 0)) with false
    by (symmetry; apply andb_false_iff; rewrite !Z.eqb_neq; lia).
  split; [|split]; intros H.
  - replace (Z.abs (y1 - y0) <=? Z.abs (x1 - x0)) with true
      by (symmetry; apply Z.leb_le; lia).
    apply map_ext. intros k. f_equal.
    rewrite H, Z.sub_diag. cbn [Z.sgn]. lia.
  - replace (Z.abs (y1 - y0) <=? Z.abs (x1 - x0)) with false
      by (symmetry; apply Z.leb_gt; lia).
    apply map_ext. intros k. f_equal.
    rewrite H, Z.sub_diag. cbn [Z.sgn]. lia.
  - replace (Z.abs (y1 - y0) <=? Z.abs (x1 - x0)) with true
      by (symmetry; apply Z.leb_le; lia).
    apply map_ext. intros k. do 3 f_equal.
    rewrite H. apply Z.div_mul. lia.
Qed.

Lemma draw_line_straight_witness :
  exists l,
    returns (fun fuel => draw_line fuel 0 65 130 65 0) l /\
    (65 = 65 ->
     cells l = map (fun k => (0 + Z.sgn (130 - 0) * k, 65))
                   (zseq 0 (Z.to_nat (Z.abs (130 - 0) + 1)))) /\
    (130 = 0 ->
     cells l = map (fun k => (0, 65 + Z.sgn (65 - 65) * k))
                   (zseq 0 (Z.to_nat (Z.abs (65 - 65) + 1)))) /\
    (Z.abs (130 - 0) = Z.abs (65 - 65) ->
     cells l = map (fun k => (0 + Z.sgn (130 - 0) * k,
                              65 + Z.sgn (65 - 65) * k))
                   (zseq 0 (Z.to_nat (Z.abs (130 - 0) + 1)))).
Proof.
  apply (draw_line_straight 0 65 130 65 0); unfold coord; lia.
Defined.

Lemma line_cells_reflect x0 y0 x1 y1 :
  x1 <> x0 \/ y1 <> y0 ->
  line_cells x1 y1 x0 y0 =
    map (reflect x0 y0 x1 y1) (line_cells x0 y0 x1 y1).
Proof.
  intros Hnd.
  assert (Hnd' : x0 <> x1 \/ y0 <> y1) by lia.
  line_form x0 y0 x1 y1 Hnd.
  destruct (line_cells_form x1 y1 x0 y0 Hnd')
    as (D' & d' & sx' & sy' & _ & _ & Hsx' & Hsy' & HD' & Hd' & Hform').
  assert (HDD : D' = D) by lia. assert (Hdd : d' = d) by lia.
  clear HD' Hd'. subst D' d'.
  destruct Hform as [(Hs & Hx & Hy & ->)|(Hs & Hx & Hy & ->)];
    (destruct Hform' as [(Hs' & Hx' & Hy' & ->)|(Hs' & Hx' & Hy' & ->)];
     [|]; try lia);
    rewrite map_map; apply map_ext; intros k;
    unfold reflect; cbn [fst snd]; f_equal.
  - nia.
  - assert (d = 0 \/ sy' = - sy) as [Hz|Hz] by nia.
    + rewrite Hz in Hy, Hy' |- *. rewrite Z.mul_0_r.
      change (0 / D) with 0. lia.
    + nia.
  - assert (d = 0 \/ sx' = - sx) as [Hz|Hz] by nia.
    + rewrite Hz in Hx, Hx' |- *. rewrite Z.mul_0_r.
      change (0 / D) with 0. lia.
    + nia.
  - nia.
Qed.

(** X5: the two directions of a segment.  Between two different endpoints in
    the coordinate range, the k-th cell plotted from p1 to p0 is the point
    reflection, through the middle of the segment, of the k-th cell plotted
    from p0 to p1. *)
Theorem draw_line_reverse x0 y0 x1 y1 ch :
  coord x0 -> coord y0 -> coord x1 -> coord y1 ->
  x1 <> x0 \/ y1 <> y0 ->
  exists l01 l10,
    returns (fun fuel => draw_line fuel x0 y0 x1 y1 ch) l01 /\
    returns (fun fuel => draw_line fuel x1 y1 x0 y0 ch) l10 /\
    cells l10 = map (reflect x0 y0 x1 y1) (cells l01).
Proof.
  intros Hx0 Hy0 Hx1 Hy1 Hnd.
  exists (line ch x0 y0 x1 y1), (line ch x1 y1 x0 y0).
  split; [now apply draw_line_returns|].
  split; [now apply draw_line_returns|].
  rewrite !cells_line. now apply line_cells_reflect.
Qed.

Lemma draw_line_reverse_witness :
  exists l01 l10,
    returns (fun fuel => draw_line fuel 0 0 2 1 0) l01 /\
    returns (fun fuel => draw_line fuel 2 1 0 0 0) l10 /\
    cells l10 = map (reflect 0 0 2 1) (cells l01).
Proof.
  apply (draw_line_reverse 0 0 2 1 0); unfold coord; lia.
Defined.

Lemma for_loop_glyphs {St : Type} (fuel : nat) cond body incr ch :
  (forall s : St, Forall (fun c => glyph_of c = ch) (snd (body s))) ->
  forall s l,
    for_loop fuel cond body incr s = Some l ->
    Forall (fun c => glyph_of c = ch) l.
Proof.
  intros Hb. induction fuel as [|fuel IH]; intros s l; [discriminate|].
  cbn [for_loop]. destruct (cond s); [|intros [= <-]; constructor].
  specialize (Hb s). destruct (body s) as [s' o]. cbn [snd] in Hb.
  destruct (for_loop fuel cond body incr (incr s')) as [rest|] eqn:E;
    [|discriminate].
  intros [= <-]. apply Forall_app. split; [exact Hb | now apply (IH _ _ E)].
Qed.

(** X6: whatever its arguments, also outside the coordinate range, a call of
    [draw_line] that returns has called [mvaddch] at least once, and every
    call carries the glyph it was given. *)
Theorem draw_line_never_silent fuel x0 y0 x1 y1 ch l :
  draw_line fuel x0 y0 x1 y1 ch = Some l ->
  l <> [] /\ Forall (fun c => glyph_of c = ch) l.
Proof.
  intros H. split; [now apply draw_line_plots in H|].
  revert H. unfold draw_line.
  repeat match goal with |- context [if ?b then _ else _] => destruct b end;
    apply for_loop_glyphs; intros [[a b] c]; cbv beta iota;
    destruct (c <=? 0); cbn [snd]; repeat constructor.
Qed.

Lemma draw_line_never_silent_witness :
  [mvaddch 0 0 7; mvaddch 0 1 7; mvaddch 1 2 7] <> [] /\
  Forall (fun c => glyph_of c = 7)
         [mvaddch 0 0 7; mvaddch 0 1 7; mvaddch 1 2 7].
Proof.
  apply (draw_line_never_silent 4 0 0 2 1 7). reflexivity.
Defined.

(** ** More on [draw_sierpinski] *)

Lemma line_cells_in_wide_box lx hx ly hy x0 y0 x1 y1 :
  lx <= x0 <= hx -> lx <= x1 <= hx -> ly <= y0 <= hy -> ly <= y1 <= hy ->
  Forall (in_box lx hx ly (hy + 1)) (line_cells x0 y0 x1 y1).
Proof.
  intros Hx0 Hx1 Hy0 Hy1.
  assert (Hnd : (x1 = x0 /\ y1 = y0) \/ x1 <> x0 \/ y1 <> y0) by lia.
  destruct Hnd as [[-> ->]|Hnd].
  - unfold line_cells. rewrite !Z.sub_diag. cbn.
    constructor; [|constructor]. unfold in_box. cbn [fst snd]. lia.
  - eapply Forall_impl; [|apply (line_cells_in_box x0 y0 x1 y1 Hnd)].
    intros [x y]. unfold in_box. cbn [fst snd]. lia.
Qed.

Lemma sierpinski_lines_in_box ch lx hx ly hy (n : nat) :
  forall ax ay bx by_ cx cy,
    coord ax -> coord ay -> coord bx -> coord by_ -> coord cx -> coord cy ->
    lx <= ax <= hx -> lx <= bx <= hx -> lx <= cx <= hx ->
    ly <= ay <= hy -> ly <= by_ <= hy -> ly <= cy <= hy ->
    Forall (fun l => Forall (in_box lx hx ly (hy + 1)) (cells l))
           (sierpinski_lines ch n ax ay bx by_ cx cy).
Proof.
  induction n as [|n IH];
    intros ax ay bx by_ cx cy Hax Hay Hbx Hby Hcx Hcy Bax Bbx Bcx Bay Bby Bcy.
  - constructor.
  - cbn [sierpinski_lines]. unfold mid_ab, mid_ac. cbn [fst snd].
    pose proof (midpoint_between ax bx Hax Hbx) as M1.
    pose proof (midpoint_between by_ ay Hby Hay) as M2.
    pose proof (midpoint_between cx ax Hcx Hax) as M3.
    pose proof (midpoint_between cy ay Hcy Hay) as M4.
    pose proof (midpoint_coord ax bx Hax Hbx) as C1.
    pose proof (midpoint_coord by_ ay Hby Hay) as C2.
    pose proof (midpoint_coord cx ax Hcx Hax) as C3.
    pose proof (midpoint_coord cy ay Hcy Hay) as C4.
    repeat (apply Forall_app; split).
    + apply IH; trivial; lia.
    + apply IH; trivial; lia.
    + apply IH; trivial; lia.
    + repeat constructor; rewrite cells_line;
        now apply line_cells_in_wide_box.
Qed.

(** X7: the area that a figure needs.  For vertices in the coordinate range
    and a depth from 0 to [int_max], no call of [mvaddch] of
    [draw_sierpinski] is outside the columns and rows that the three vertices
    span, extended by one row below (the row that a line between equal
    endpoints is plotted on). *)
Theorem draw_sierpinski_in_box ch ax ay bx by_ cx cy depth :
  coord ax -> coord ay -> coord bx -> coord by_ -> coord cx -> coord cy ->
  0 <= depth <= int_max ->
  exists out,
    returns2 (fun stack fuel =>
                draw_sierpinski ch stack fuel ax ay bx by_ cx cy depth) out /\
    Forall (fun l =>
              Forall (in_box (Z.min ax (Z.min bx cx)) (Z.max ax (Z.max bx cx))
                             (Z.min ay (Z.min by_ cy))
                             (Z.max ay (Z.max by_ cy) + 1))
                     (cells l))
           out.
Proof.
  intros Hax Hay Hbx Hby Hcx Hcy Hd.
  exists (sierpinski_lines ch (Z.to_nat depth) ax ay bx by_ cx cy).
  split; [now apply draw_sierpinski_returns|].
  apply sierpinski_lines_in_box; trivial; lia.
Qed.

Lemma draw_sierpinski_in_box_witness :
  exists out,
    returns2 (fun stack fuel =>
                draw_sierpinski 0 stack fuel 200 0 135 65 265 65 7) out /\
    Forall (fun l =>
              Forall (in_box (Z.min 200 (Z.min 135 265))
                             (Z.max 200 (Z.max 135 265))
                             (Z.min 0 (Z.min 65 65))
                             (Z.max 0 (Z.max 65 65) + 1))
                     (cells l))
           out.
Proof.
  apply (draw_sierpinski_in_box 0 200 0 135 65 265 65 7);
    unfold coord, int_max; lia.
Defined.

Lemma draw_triangle_returns ch t depth :
  (let '((ax, ay), (bx, by_), (cx, cy)) := t in
   coord ax /\ coord ay /\ coord bx /\ coord by_ /\ coord cx /\ coord cy) ->
  0 <= depth <= int_max ->
  returns2 (fun stack fuel => draw_triangle ch stack fuel t depth)
           (let '((ax, ay), (bx, by_), (cx, cy)) := t in
            sierpinski_lines ch (Z.to_nat depth) ax ay bx by_ cx cy).
Proof.
  destruct t as [[[ax ay] [bx by_]] [cx cy]].
  intros (Hax & Hay & Hbx & Hby & Hcx & Hcy) Hd.
  now apply draw_sierpinski_returns.
Qed.

(** X8: how a figure is composed.  For vertices in the coordinate range and a
    depth from 1 to [int_max], what [draw_sierpinski] draws is what it draws
    for the left, the right and the upper triangle at depth - 1, in this
    order, followed by the edges A-B, B-C and C-A of its own triangle: the
    border of a triangle is drawn after everything inside it. *)
Theorem draw_sierpinski_composition ch ax ay bx by_ cx cy depth :
  coord ax -> coord ay -> coord bx -> coord by_ -> coord cx -> coord cy ->
  0 < depth <= int_max ->
  exists out left right upper ab bc ca,
    returns2 (fun stack fuel =>
                draw_sierpinski ch stack fuel ax ay bx by_ cx cy depth) out /\
    returns2 (fun stack fuel =>
                draw_triangle ch stack fuel
                  (left_triangle ax ay bx by_ cx cy) (depth - 1)) left /\
    returns2 (fun stack fuel =>
                draw_triangle ch stack fuel
                  (right_triangle ax ay bx by_ cx cy) (depth - 1)) right /\
    returns2 (fun stack fuel =>
                draw_triangle ch stack fuel
                  (upper_triangle ax ay bx by_ cx cy) (depth - 1)) upper /\
    returns (fun fuel => draw_line fuel ax ay bx by_ ch) ab /\
    returns (fun fuel => draw_line fuel bx by_ cx cy ch) bc /\
    returns (fun fuel => draw_line fuel cx cy ax ay ch) ca /\
    out = left ++ right ++ upper ++ [ab; bc; ca].
Proof.
  intros Hax Hay Hbx Hby Hcx Hcy Hd.
  pose proof (midpoint_coord ax bx Hax Hbx) as C1.
  pose proof (midpoint_coord by_ ay Hby Hay) as C2.
  pose proof (midpoint_coord cx ax Hcx Hax) as C3.
  pose proof (midpoint_coord cy ay Hcy Hay) as C4.
  exists (sierpinski_lines ch (Z.to_nat depth) ax ay bx by_ cx cy).
  eexists. eexists. eexists.
  exists (line ch ax ay bx by_), (line ch bx by_ cx cy), (line ch cx cy ax ay).
  split; [apply draw_sierpinski_returns; trivial; lia|].
  split; [apply (draw_triangle_returns ch (left_triangle ax ay bx by_ cx cy));
          [exact (conj C1 (conj C2 (conj Hbx (conj Hby (conj Hax Hby)))))
          | lia]|].
  split; [apply (draw_triangle_returns ch (right_triangle ax ay bx by_ cx cy));
          [exact (conj C3 (conj C4 (conj Hax (conj Hby (conj Hcx Hcy)))))
          | lia]|].
  split; [apply (draw_triangle_returns ch (upper_triangle ax ay bx by_ cx cy));
          [exact (conj Hax (conj Hay (conj C1 (conj C2 (conj C3 C4)))))
          | lia]|].
  split; [now apply draw_line_returns|].
  split; [now apply draw_line_returns|].
  split; [now apply draw_line_returns|].
  replace (Z.to_nat depth) with (S (Z.to_nat (depth - 1))) by lia.
  reflexivity.
Qed.

Lemma draw_sierpinski_composition_witness :
  exists out left right upper ab bc ca,
    returns2 (fun stack fuel =>
                draw_sierpinski 0 stack fuel 65 0 0 65 130 65 4) out /\
    returns2 (fun stack fuel =>
                draw_triangle 0 stack fuel
                  (left_triangle 65 0 0 65 130 65) (4 - 1)) left /\
    returns2 (fun stack fuel =>
                draw_triangle 0 stack fuel
                  (right_triangle 65 0 0 65 130 65) (4 - 1)) right /\
    returns2 (fun stack fuel =>
                draw_triangle 0 stack fuel
                  (upper_triangle 65 0 0 65 130 65) (4 - 1)) upper /\
    returns (fun fuel => draw_line fuel 65 0 0 65 0) ab /\
    returns (fun fuel => draw_line fuel 0 65 130 65 0) bc /\
    returns (fun fuel => draw_line fuel 130 65 65 0 0) ca /\
    out = left ++ right ++ upper ++ [ab; bc; ca].
Proof.
  apply (draw_sierpinski_composition 0 65 0 0 65 130 65 4);
    unfold coord, int_max; lia.
Defined.

Lemma midpoint_same a : coord a -> add a (div (sub a a) 2) = a.
Proof.
  intros Ha. rewrite midpoint_value by assumption.
  rewrite Z.sub_diag. change (Z.quot 0 2) with 0. lia.
Qed.

Lemma sierpinski_lines_point ch x y (n : nat) :
  coord x -> coord y ->
  Forall (fun l => l = [mvaddch (y + 1) x ch])
         (sierpinski_lines ch n x y x y x y).
Proof.
  intros Hx Hy. induction n as [|n IH]; [constructor|].
  cbn [sierpinski_lines]. unfold mid_ab, mid_ac. cbn [fst snd].
  rewrite !midpoint_same by assumption.
  repeat (apply Forall_app; split); try exact IH.
  unfold line, line_cells. rewrite !Z.sub_diag. cbn.
  repeat constructor.
Qed.

(** X9: a triangle that is a single point.  With the three vertices equal,
    in the coordinate range, every call of [draw_line] that [draw_sierpinski]
    makes, at any depth from 0 to [int_max], is between equal endpoints, and
    what is plotted is the cell below the point and never the point. *)
Theorem draw_sierpinski_point ch x y depth :
  coord x -> coord y -> 0 <= depth <= int_max ->
  exists out,
    returns2 (fun stack fuel =>
                draw_sierpinski ch stack fuel x y x y x y depth) out /\
    Forall (fun l => l = [mvaddch (y + 1) x ch]) out.
Proof.
  intros Hx Hy Hd.
  exists (sierpinski_lines ch (Z.to_nat depth) x y x y x y).
  split; [now apply draw_sierpinski_returns|].
  now apply sierpinski_lines_point.
Qed.

Lemma draw_sierpinski_point_witness :
  exists out,
    returns2 (fun stack fuel =>
                draw_sierpinski 0 stack fuel 3 5 3 5 3 5 2) out /\
    Forall (fun l => l = [mvaddch (5 + 1) 3 0]) out.
Proof.
  apply (draw_sierpinski_point 0 3 5 2); unfold coord, int_max; lia.
Defined.

(** X10: the shape that the recursion keeps.  On a triangle with A not below
    B, between B and C in x, and B and C on one row (the triangles of [main]),
    in the coordinate range, the three triangles of the recursive calls have
    that shape again, and the two midpoints that are computed are the floors
    of the means of the endpoints: C's truncating division never rounds up
    there. *)
Theorem draw_sierpinski_upright ax ay bx by_ cx cy :
  coord ax -> coord ay -> coord bx -> coord by_ -> coord cx -> coord cy ->
  upright ((ax, ay), (bx, by_), (cx, cy)) ->
  upright (left_triangle ax ay bx by_ cx cy) /\
  upright (right_triangle ax ay bx by_ cx cy) /\
  upright (upper_triangle ax ay bx by_ cx cy) /\
  mid_ab ax ay bx by_ = floor_mid (ax, ay) (bx, by_) /\
  mid_ac ax ay cx cy = floor_mid (ax, ay) (cx, cy).
Proof.
  intros Hax Hay Hbx Hby Hcx Hcy (Hx & Hy & Hc). subst cy.
  pose proof (midpoint_between ax bx Hax Hbx) as M1.
  pose proof (midpoint_between by_ ay Hby Hay) as M2.
  pose proof (midpoint_between cx ax Hcx Hax) as M3.
  unfold left_triangle, right_triangle, upper_triangle, mid_ab, mid_ac,
    upright, floor_mid. cbn [fst snd].
  repeat split; try lia.
  - f_equal; [apply midpoint_floor | rewrite (Z.add_comm ay by_);
                                     apply midpoint_floor]; trivial; lia.
  - f_equal; [rewrite (Z.add_comm ax cx) | rewrite (Z.add_comm ay by_)];
      apply midpoint_floor; trivial; lia.
Qed.

Lemma draw_sierpinski_upright_witness :
  upright (left_triangle 65 0 0 65 130 65) /\
  upright (right_triangle 65 0 0 65 130 65) /\
  upright (upper_triangle 65 0 0 65 130 65) /\
  mid_ab 65 0 0 65 = floor_mid (65, 0) (0, 65) /\
  mid_ac 65 0 130 65 = floor_mid (65, 0) (130, 65).
Proof.
  apply (draw_sierpinski_upright 65 0 0 65 130 65);
    unfold coord, upright; lia.
Defined.

Lemma sierpinski_lines_glyph ch (n : nat) :
  forall ax ay bx by_ cx cy,
    Forall (Forall (fun c => glyph_of c = ch))
           (sierpinski_lines ch n ax ay bx by_ cx cy).
Proof.
  induction n as [|n IH]; intros ax ay bx by_ cx cy; [constructor|].
  cbn [sierpinski_lines].
  repeat (apply Forall_app; split); try apply IH.
  repeat constructor; unfold line; apply Forall_forall; intros c Hc;
    apply in_map_iff in Hc; destruct Hc as (p & <- & _); reflexivity.
Qed.

Lemma sierpinski_lines_cells ch ch' (n : nat) :
  forall ax ay bx by_ cx cy,
    map cells (sierpinski_lines ch n ax ay bx by_ cx cy) =
    map cells (sierpinski_lines ch' n ax ay bx by_ cx cy).
Proof.
  induction n as [|n IH]; intros ax ay bx by_ cx cy; [reflexivity|].
  cbn [sierpinski_lines]. rewrite !map_app. cbn [map].
  rewrite !cells_line.
  now rewrite (IH _ _ bx by_ ax by_), (IH _ _ ax by_ cx cy),
    (IH ax ay).
Qed.

(** X11: the glyph is passed through.  For vertices in the coordinate range
    and a depth from 0 to [int_max], every call of [mvaddch] of
    [draw_sierpinski] carries the glyph that the call was given, and the cells
    that are plotted, call by call, are the same for every glyph. *)
Theorem draw_sierpinski_glyph ch ch' ax ay bx by_ cx cy depth :
  coord ax -> coord ay -> coord bx -> coord by_ -> coord cx -> coord cy ->
  0 <= depth <= int_max ->
  exists out out',
    returns2 (fun stack fuel =>
                draw_sierpinski ch stack fuel ax ay bx by_ cx cy depth) out /\
    returns2 (fun stack fuel =>
                draw_sierpinski ch' stack fuel ax ay bx by_ cx cy depth) out' /\
    Forall (Forall (fun c => glyph_of c = ch)) out /\
    map cells out = map cells out'.
Proof.
  intros Hax Hay Hbx Hby Hcx Hcy Hd.
  exists (sierpinski_lines ch (Z.to_nat depth) ax ay bx by_ cx cy),
         (sierpinski_lines ch' (Z.to_nat depth) ax ay bx by_ cx cy).
  split; [now apply draw_sierpinski_returns|].
  split; [now apply draw_sierpinski_returns|].
  split; [apply sierpinski_lines_glyph | apply sierpinski_lines_cells].
Qed.

Lemma draw_sierpinski_glyph_witness :
  exists out out',
    returns2 (fun stack fuel =>
                draw_sierpinski 96 stack fuel 65 0 0 65 130 65 4) out /\
    returns2 (fun stack fuel =>
                draw_sierpinski 42 stack fuel 65 0 0 65 130 65 4) out' /\
    Forall (Forall (fun c => glyph_of c = 96)) out /\
    map cells out = map cells out'.
Proof.
  apply (draw_sierpinski_glyph 96 42 65 0 0 65 130 65 4);
    unfold coord, int_max; lia.
Defined.

(** ** The program *)

(** The calls of [init]. *)
Lemma init_calls (lib : Main.library) :
  let calls := [Main.initscr; Main.cbreak; Main.noecho; Main.nonl;
                Main.intrflush false; Main.keypad true] in
  let oks := [Main.initscr_ok lib; Main.cbreak_ok lib; Main.noecho_ok lib;
              Main.nonl_ok lib; Main.intrflush_ok lib; Main.keypad_ok lib] in
  (fst (Main.init lib) = true <-> forallb (fun ok => ok) oks = true) /\
  exists n : nat,
    snd (Main.init lib) = firstn (S n) calls /\
    firstn n oks = repeat true n /\
    (fst (Main.init lib) = false -> nth n oks true = false) /\
    (fst (Main.init lib) = true -> n = 5%nat).
Proof.
  destruct lib as [o1 o2 o3 o4 o5 o6 cols].
  cbv zeta. split.
  - destruct o1, o2, o3, o4, o5, o6; cbn; split; congruence.
  - destruct o1;
      [destruct o2;
        [destruct o3;
          [destruct o4;
            [destruct o5; [exists 5%nat | exists 4%nat]
            | exists 3%nat]
          | exists 2%nat]
        | exists 1%nat]
      | exists 0%nat];
      try destruct o6; cbn; repeat split; congruence.
Qed.

Lemma init_trace (lib : Main.library) :
  forall ev, In ev (snd (Main.init lib)) ->
    In ev [Main.initscr; Main.cbreak; Main.noecho; Main.nonl;
           Main.intrflush false; Main.keypad true].
Proof.
  destruct (init_calls lib) as [_ (n & -> & _)].
  intros ev Hin.
  match goal with H : In ev (firstn ?k ?l) |- _ =>
    rewrite <- (firstn_skipn k l) end.
  apply in_or_app. now left.
Qed.

(** X12: [init] makes the six calls of the library in the order of the
    source and stops at the first one that fails: it makes call number n only
    if all calls before it succeeded, and it returns true exactly when all
    six succeed. *)
Theorem init_first_failure (lib : Main.library) :
  let calls := [Main.initscr; Main.cbreak; Main.noecho; Main.nonl;
                Main.intrflush false; Main.keypad true] in
  let oks := [Main.initscr_ok lib; Main.cbreak_ok lib; Main.noecho_ok lib;
              Main.nonl_ok lib; Main.intrflush_ok lib; Main.keypad_ok lib] in
  (fst (Main.init lib) = true <-> forallb (fun ok => ok) oks = true) /\
  exists n : nat,
    snd (Main.init lib) = firstn (S n) calls /\
    firstn n oks = repeat true n /\
    (fst (Main.init lib) = false -> nth n oks true = false) /\
    (fst (Main.init lib) = true -> n = 5%nat).
Proof. exact (init_calls lib). Qed.

(** X13: when a call of [init] fails, [main] returns [EXIT_FAILURE] after
    reporting on [stderr]: it draws nothing, and it does not call [endwin],
    also when [initscr] itself had succeeded. *)
Theorem main_init_failure (lib : Main.library) ch argv0 (stack fuel : nat) :
  fst (Main.init lib) = false ->
  exists t,
    Main.main lib ch argv0 stack fuel = Some (Main.EXIT_FAILURE, t) /\
    last t Main.initscr = Main.fprintf_stderr (Main.init_failed argv0) /\
    (forall c, ~ In (Main.plot c) t) /\
    (forall y x str, ~ In (Main.mvaddstr y x str) t) /\
    ~ In Main.refresh t /\ ~ In Main.getch t /\ ~ In Main.endwin t.
Proof.
  intros Hfail. pose proof (init_trace lib) as Htr.
  unfold Main.main. destruct (Main.init lib) as [ok started].
  cbn [fst snd] in Hfail, Htr. subst ok. cbn [negb].
  eexists. split; [reflexivity|].
  split; [apply last_last|].
  assert (Hno : forall ev,
             In ev (started ++ [Main.fprintf_stderr (Main.init_failed argv0)]) ->
             In ev [Main.initscr; Main.cbreak; Main.noecho; Main.nonl;
                    Main.intrflush false; Main.keypad true;
                    Main.fprintf_stderr (Main.init_failed argv0)]).
  { intros ev Hin. apply in_app_or in Hin. destruct Hin as [Hin|Hin].
    - apply Htr in Hin. cbn in Hin |- *. tauto.
    - cbn in Hin |- *. tauto. }
  repeat split; repeat intro;
    match goal with H : In _ _ |- _ => apply Hno in H; cbn in H end;
    repeat match goal with H : _ \/ _ |- _ => destruct H end;
    try discriminate; assumption.
Qed.

Lemma main_init_failure_witness :
  exists t,
    Main.main (Main.Build_library true false true true true true 80) 0
              String.EmptyString 0 0 = Some (Main.EXIT_FAILURE, t) /\
    last t Main.initscr =
      Main.fprintf_stderr (Main.init_failed String.EmptyString) /\
    (forall c, ~ In (Main.plot c) t) /\
    (forall y x str, ~ In (Main.mvaddstr y x str) t) /\
    ~ In Main.refresh t /\ ~ In Main.getch t /\ ~ In Main.endwin t.
Proof.
  apply (main_init_failure
           (Main.Build_library true false true true true true 80)).
  reflexivity.
Defined.

(** The loop fuel that a figure needs is bounded by the extent of the
    rectangle around its vertices. *)
Lemma draw_sierpinski_lines_box ch lx hx ly hy (n : nat) :
  forall (stack fuel : nat) ax ay bx by_ cx cy,
    coord ax -> coord ay -> coord bx -> coord by_ -> coord cx -> coord cy ->
    lx <= ax <= hx -> lx <= bx <= hx -> lx <= cx <= hx ->
    ly <= ay <= hy -> ly <= by_ <= hy -> ly <= cy <= hy ->
    Z.of_nat n <= int_max ->
    (n < stack)%nat ->
    (Z.to_nat (Z.max (hx - lx) (hy - ly)) + 1 < fuel)%nat ->
    draw_sierpinski ch stack fuel ax ay bx by_ cx cy (Z.of_nat n) =
      Some (sierpinski_lines ch n ax ay bx by_ cx cy).
Proof.
  induction n as [|n IH];
    intros stack fuel ax ay bx by_ cx cy Hax Hay Hbx Hby Hcx Hcy
           Bax Bbx Bcx Bay Bby Bcy Hn Hstack Hfuel;
    (destruct stack as [|stack]; [lia|]).
  - reflexivity.
  - cbn [draw_sierpinski sierpinski_lines].
    replace (Z.of_nat (S n) =? 0) with false by (symmetry; apply Z.eqb_neq; lia).
    replace (sub (Z.of_nat (S n)) 1) with (Z.of_nat n)
      by (rewrite sub_id; int_ranges; lia).
    pose proof (midpoint_between ax bx Hax Hbx) as M1.
    pose proof (midpoint_between by_ ay Hby Hay) as M2.
    pose proof (midpoint_between cx ax Hcx Hax) as M3.
    pose proof (midpoint_between cy ay Hcy Hay) as M4.
    unfold mid_ab, mid_ac. cbn [fst snd].
    rewrite !IH by (try apply midpoint_coord; trivial; lia).
    unfold line.
    rewrite !draw_line_cells by (trivial; lia).
    reflexivity.
Qed.

Lemma forallb_in_box lx hx ly hy l :
  forallb (in_boxb lx hx ly hy) l = true -> Forall (in_box lx hx ly hy) l.
Proof.
  intros H. apply Forall_forall. intros c Hc.
  rewrite forallb_forall in H. specialize (H c Hc).
  unfold in_boxb in H. unfold in_box.
  rewrite !andb_true_iff, !Z.leb_le in H. lia.
Qed.

(** X14: when every call of [init] succeeds, [main], on a stack of at least
    8 nested calls and with loop fuel of at least 132, returns
    [EXIT_SUCCESS].  Its calls are, in this order: the six calls of [init],
    the figure of depth 4, the figure of depth 7, the two texts on rows 1 and
    4, [refresh], [getch] and last [endwin].  The first figure is within the
    columns 0 to 130 and the second within the columns 135 to 265, both within
    the rows 0 to 65, so that the two never share a cell. *)
Theorem main_success (lib : Main.library) ch argv0 (stack fuel : nat) :
  fst (Main.init lib) = true ->
  (8 <= stack)%nat -> (132 <= fuel)%nat ->
  exists first second,
    returns2 (fun stack fuel =>
                draw_sierpinski ch stack fuel 65 0 0 65 130 65 4) first /\
    returns2 (fun stack fuel =>
                draw_sierpinski ch stack fuel 200 0 135 65 265 65 7) second /\
    Main.main lib ch argv0 stack fuel =
      Some (Main.EXIT_SUCCESS,
            [Main.initscr; Main.cbreak; Main.noecho; Main.nonl;
             Main.intrflush false; Main.keypad true] ++
            map Main.plot (plots first) ++ map Main.plot (plots second) ++
            [Main.mvaddstr 1 (Main.text_column (Main.COLS lib) Main.MSG1)
                           Main.MSG1;
             Main.mvaddstr 4 (Main.text_column (Main.COLS lib) Main.MSG2)
                           Main.MSG2;
             Main.refresh; Main.getch; Main.endwin]) /\
    Forall (in_box 0 130 0 65) (cells (plots first)) /\
    Forall (in_box 135 265 0 65) (cells (plots second)).
Proof.
  intros Hok Hstack Hfuel.
  exists (sierpinski_lines ch (Z.to_nat 4) 65 0 0 65 130 65),
         (sierpinski_lines ch (Z.to_nat 7) 200 0 135 65 265 65).
  split; [apply draw_sierpinski_returns; unfold coord, int_max; lia|].
  split; [apply draw_sierpinski_returns; unfold coord, int_max; lia|].
  split.
  - destruct (init_calls lib) as [_ (n & Htr & _ & _ & Hn)].
    unfold Main.main. destruct (Main.init lib) as [ok started].
    cbn [fst snd] in Hok, Htr, Hn. subst ok. rewrite (Hn eq_refl) in Htr.
    subst started. cbn [negb firstn].
    change 4 with (Z.of_nat 4) at 1. change 7 with (Z.of_nat 7) at 1.
    rewrite (draw_sierpinski_lines_box ch 0 130 0 65 4)
      by (unfold coord, int_max; lia).
    rewrite (draw_sierpinski_lines_box ch 135 265 0 65 7)
      by (unfold coord, int_max; lia).
    reflexivity.
  - split; apply forallb_in_box; vm_compute; reflexivity.
Qed.

Lemma main_success_witness :
  exists first second,
    returns2 (fun stack fuel =>
                draw_sierpinski 96 stack fuel 65 0 0 65 130 65 4) first /\
    returns2 (fun stack fuel =>
                draw_sierpinski 96 stack fuel 200 0 135 65 265 65 7) second /\
    Main.main (Main.Build_library true true true true true true 280) 96
              String.EmptyString 8 132 =
      Some (Main.EXIT_SUCCESS,
            [Main.initscr; Main.cbreak; Main.noecho; Main.nonl;
             Main.intrflush false; Main.keypad true] ++
            map Main.plot (plots first) ++ map Main.plot (plots second) ++
            [Main.mvaddstr 1 (Main.text_column 280 Main.MSG1) Main.MSG1;
             Main.mvaddstr 4 (Main.text_column 280 Main.MSG2) Main.MSG2;
             Main.refresh; Main.getch; Main.endwin]) /\
    Forall (in_box 0 130 0 65) (cells (plots first)) /\
    Forall (in_box 135 265 0 65) (cells (plots second)).
Proof.
  apply (main_success (Main.Build_library true true true true true true 280)
           96 String.EmptyString 8 132);
    [reflexivity | apply le_n | apply le_n].
Defined.

Lemma wrap_mod64 z : wrap (z mod 2 ^ 64) = wrap z.
Proof.
  assert (Hdiv : (2 ^ 32 | 2 ^ 64)) by (exists (2 ^ 32); reflexivity).
  unfold wrap. f_equal.
  rewrite <- (Z.add_mod_idemp_l (z mod 2 ^ 64)) by lia.
  rewrite (Z.mod_mod_divide z _ _ Hdiv).
  now rewrite Z.add_mod_idemp_l by lia.
Qed.

(** X15: the two texts are centred.  For a screen width [COLS] from 0 to
    [int_max], the column that [main] computes for each text, through the
    unsigned arithmetic of [strlen], is COLS / 2 - 9.  The text of 19
    characters fits the row exactly when COLS is at least 19, and the margin
    on its left is then the margin on its right or one more. *)
Theorem text_column_centred cols :
  0 <= cols <= int_max ->
  Main.text_column cols Main.MSG1 = Z.quot cols 2 - 9 /\
  Main.text_column cols Main.MSG2 = Z.quot cols 2 - 9 /\
  Main.strlen Main.MSG1 = 19 /\ Main.strlen Main.MSG2 = 19 /\
  (0 <= Main.text_column cols Main.MSG1 /\
   Main.text_column cols Main.MSG1 + 19 <= cols <-> 19 <= cols) /\
  0 <= Main.text_column cols Main.MSG1 -
       (cols - Main.text_column cols Main.MSG1 - 19) <= 1.
Proof.
  intros Hc.
  assert (Hcol : forall s, Main.strlen s = 19 ->
                   Main.text_column cols s = Z.quot cols 2 - 9).
  { intros s Hs. unfold Main.text_column. rewrite Hs.
    change (19 / 2) with 9.
    rewrite Zminus_mod_idemp_l, wrap_mod64.
    pose proof (Z.quot_rem' cols 2) as Hqr.
    pose proof (Z.rem_bound_pos cols 2 ltac:(lia) ltac:(lia)) as Hr.
    unfold div. rewrite (wrap_id (Z.quot cols 2)) by (int_ranges; lia).
    apply wrap_id. int_ranges. lia. }
  assert (H1 : Main.strlen Main.MSG1 = 19) by reflexivity.
  assert (H2 : Main.strlen Main.MSG2 = 19) by reflexivity.
  rewrite !(Hcol _ H1), (Hcol _ H2).
  pose proof (Z.quot_rem' cols 2) as Hqr.
  pose proof (Z.rem_bound_pos cols 2 ltac:(lia) ltac:(lia)) as Hr.
  repeat split; try reflexivity; lia.
Qed.

Lemma text_column_centred_witness :
  Main.text_column 80 Main.MSG1 = Z.quot 80 2 - 9 /\
  Main.text_column 80 Main.MSG2 = Z.quot 80 2 - 9 /\
  Main.strlen Main.MSG1 = 19 /\ Main.strlen Main.MSG2 = 19 /\
  (0 <= Main.text_column 80 Main.MSG1 /\
   Main.text_column 80 Main.MSG1 + 19 <= 80 <-> 19 <= 80) /\
  0 <= Main.text_column 80 Main.MSG1 -
       (80 - Main.text_column 80 Main.MSG1 - 19) <= 1.
Proof.
  apply (text_column_centred 80). unfold int_max. lia.
Defined.
